(** * The DOLFIN finite-element assembler ([dolfin/fem/Assembler.cpp])

    A shallow embedding of [fem::Assembler]: matrix assembly (plain and
    nested), vector assembly, the lifting correction [apply_bc] and the
    boundary-value overwrite [set_bc], together with the properties of
    the assembly algorithm.

    Conventions.
    - [double] values are elements of an abstract scalar type with the
      operations the source uses ([0], [1.0], [+=], [-=], [*]).  Where a
      property needs exact algebra, the ring laws are hypotheses.
    - Every call into a collaborator (PETSc backend, UFC kernel,
      [DirichletBC]) is recorded as an [Event]; a run yields the final
      object and the trace of events.
    - [throw] and accesses outside a [std::vector] or through a null
      [shared_ptr] end the run with an [Error]. *)

From Stdlib Require Import ZArith Ring.
From stdpp Require Import base list gmap strings.

(** ** Scalars *)

Class Scalar (R : Type) := {
  rzero : R;
  rone : R;
  radd : R -> R -> R;
  rsub : R -> R -> R;
  rmul : R -> R -> R
}.

(** How a run can end other than by returning: the [throw] of
    [assemble(PETScMatrix&)], an index outside a [std::vector], a null
    [shared_ptr] or matrix handle that is dereferenced, an error of the
    backend. *)
Inductive Error := NotImplemented | OutOfRange | NullPointer | PetscError.

(** Which matrix object a backend call is made on: the matrix handed to
    [assemble(PETScMatrix&)], or the view of its sub-block [(i, j)]
    obtained with [MatNestGetSubMat]. *)
Inductive MatId := WholeMat | SubMat (i j : nat).

Section Model.
Context {R : Type} {SR : Scalar R}.

(** ** Data model *)

(** Address of a [FunctionSpace] object: [spaces[0] == spaces[1]]
    compares addresses. *)
Definition SpaceId := nat.

(** [cell_dofs c] is [dofmap()->cell_dofs(c)], the local-to-global map
    of cell [c]; [contains V] is [contains(V)]. *)
Record FunctionSpace := mkFunctionSpace {
  cell_dofs : nat -> list nat;
  contains : SpaceId -> bool
}.

(** [mesh_cells] is what [MeshRange<Cell>(mesh)] iterates over (the
    regular cells, none of them a ghost, so [assert(!cell.is_ghost())]
    holds); [mpi_size] is [MPI::size(mesh.mpi_comm())]. *)
Record Mesh := mkMesh {
  mesh_cells : list nat;
  mpi_size : nat
}.

(** [tabulate_tensor c i j] is the entry [(i, j)] of the element tensor
    the generated kernel writes for cell [c] (geometry and coefficients
    are functions of the cell); a rank-1 kernel writes the entries
    [tabulate_tensor c i 0]. *)
Record Form := mkForm {
  form_mesh : Mesh;
  function_space : nat -> SpaceId;
  tabulate_tensor : nat -> nat -> nat -> R
}.

(** [DirichletBC::Map] is an unordered map from global dof to value.
    [get_boundary_values] and [gather] are the collaborator's two
    operations on such a map. *)
Record DirichletBC := mkDirichletBC {
  bc_function_space : SpaceId;
  bc_method : string;
  get_boundary_values : gmap nat R -> gmap nat R;
  gather : gmap nat R -> gmap nat R
}.

Record Assembler := mkAssembler {
  _a : list (list (option Form));
  _l : list Form;
  _bcs : list DirichletBC
}.

(** An initialised sparse matrix or vector, by its entries. *)
Inductive PETScMatrix :=
| MatEmpty
| MatAIJ (m : nat -> nat -> R)
| MatNest (nr nc : nat) (subs : list (option (nat -> nat -> R))).

Inductive PETScVector :=
| VecEmpty
| VecData (x : nat -> R).

(** ** Events and runs *)

Inductive Event :=
| EvMatInit (A : MatId)
| EvNestSetSubMats (nr nc : nat)
| EvGetBoundaryValues (k axis : nat)
| EvGather (k axis : nat)
| EvTabulate (cell : nat)
| EvMatAddLocal (A : MatId) (Ae : list (list R)) (rows cols : list nat)
| EvMatApply (A : MatId)
| EvMatZeroLocal (A : MatId) (rows : list nat) (diag : R)
| EvVecInit
| EvVecAddLocal (be : list R) (rows : list nat)
| EvVecApply
| EvVecSetLocal (values : list R) (rows : list nat).

(** A run that may stop with an error: [status = None] when it returns
    normally; [final] is the object as the run left it. *)
Record Run (S : Type) := mkRun {
  status : option Error;
  final : S;
  trace : list Event
}.
Arguments mkRun {S} _ _ _.
Arguments status {S} _.
Arguments final {S} _.
Arguments trace {S} _.


Definition ret {S} (s : S) : Run S := mkRun None s [].

Definition throw {S} (e : Error) (s : S) : Run S := mkRun (Some e) s [].

Definition lift {S} (p : S * list Event) : Run S := mkRun None p.1 p.2.

(** Sequencing: an error ends the run where it happened. *)
Definition and_then {S} (r : Run S) (f : S -> Run S) : Run S :=
  match status r with
  | Some e => r
  | None =>
      let r' := f (final r) in
      mkRun (status r') (final r') (trace r ++ trace r')
  end.

Fixpoint for_each {X S} (body : X -> S -> Run S) (xs : list X) (s : S) : Run S :=
  match xs with
  | [] => ret s
  | x :: rest => and_then (body x s) (for_each body rest)
  end.

(** A loop whose body cannot fail. *)
Fixpoint for_all {X S} (body : X -> S -> S * list Event) (xs : list X) (s : S)
  : S * list Event :=
  match xs with
  | [] => (s, [])
  | x :: rest =>
      let r1 := body x s in
      let r2 := for_all body rest r1.1 in
      (r2.1, r1.2 ++ r2.2)
  end.

(** [indexed l] pairs each element with its position, as the loops
    [for (i = 0; i < l.size(); ++i)] see them. *)
Definition indexed_from {X} (k : nat) (l : list X) : list (nat * X) :=
  zip (seq k (length l)) l.

Definition indexed {X} (l : list X) : list (nat * X) := indexed_from 0 l.

(** ** Element buffers ([EigenMatrixD], [Eigen::VectorXd]) *)

(** A dense row-major matrix is the list of its rows. *)
Definition coeff (Ae : list (list R)) (i j : nat) : R :=
  default rzero (Ae !! i ≫= (.!! j)).

Definition vcoeff (be : list R) (i : nat) : R := default rzero (be !! i).

(** [Ae.resize(m, n); Ae.setZero()] and [be.resize(m); be.setZero()]. *)
Definition mat_setZero (m n : nat) : list (list R) := replicate m (replicate n rzero).

Definition vec_setZero (m : nat) : list R := replicate m rzero.

(** [Ae.row(i).setZero()] and [Ae.col(j).setZero()]. *)
Definition row_setZero (i : nat) (Ae : list (list R)) : list (list R) :=
  alter (fun row => replicate (length row) rzero) i Ae.

Definition col_setZero (j : nat) (Ae : list (list R)) : list (list R) :=
  (fun row => <[j := rzero]> row) <$> Ae.

(** [Ae.col(j)]. *)
Definition col (j : nat) (Ae : list (list R)) : list R :=
  (fun row => default rzero (row !! j)) <$> Ae.

(** The function-space objects, by address. *)
Variable heap : SpaceId -> FunctionSpace.

(** [cell_integral->tabulate_tensor(Ae.data(), ...)]: the kernel of [a]
    writes its element tensor, one row per axis-0 dof of the cell and one
    column per axis-1 dof, row-major at [Ae.data()].  Both callers size
    the rows of [Ae] to the number of axis-1 dofs, so the kernel's row [i]
    lands in row [i] of [Ae]; rows of [Ae] past the kernel's last row
    keep their zeros, and rows the kernel writes past the end of the
    buffer are no part of [Ae]. *)
Definition tabulate_matrix (a : Form) (c : nat) (Ae : list (list R)) : list (list R) :=
  let n0 := length (cell_dofs (heap (function_space a 0)) c) in
  imap (fun i row =>
          if bool_decide (i < n0)
          then imap (fun j _ => tabulate_tensor a c i j) row
          else row) Ae.

Definition tabulate_vector (L : Form) (c : nat) (be : list R) : list R :=
  imap (fun i _ => tabulate_tensor L c i 0) be.

(** ** The linear-algebra backend *)

(** The operations of [PETScMatrix] and [PETScVector] and [fem::init]
    are not among the sources.  An initialised matrix or vector is the
    function from global indices to its entries. *)

(** Modelled from the spec: [fem::init(A, a)] (section 4.1, "allocate"):
    the matrix sized for the form, all entries zero. *)
Definition mat_init : nat -> nat -> R := fun _ _ => rzero.

(** Modelled from the spec: [fem::init(b, L)]: the vector sized for the
    form, all entries zero. *)
Definition vec_init : nat -> R := fun _ => rzero.

(** Modelled from the spec: one entry of a scatter-add (glossary:
    "summed with existing values"). *)
Definition mat_add_entry (r c : nat) (x : R) (A : nat -> nat -> R) : nat -> nat -> R :=
  fun r' c' => if bool_decide (r' = r ∧ c' = c) then radd (A r' c') x else A r' c'.

(** Modelled from the spec: the scatter-add of a dense buffer, given
    the (local index, global index) pairs of its rows and columns. *)
Definition mat_add_pairs (Ae : list (list R)) (ps qs : list (nat * nat))
  (A : nat -> nat -> R) : nat -> nat -> R :=
  foldl (fun A1 p =>
           foldl (fun A2 q => mat_add_entry p.2 q.2 (coeff Ae p.1 q.1) A2) A1 qs)
        A ps.

(** Modelled from the spec: [A.add_local(Ae.data(), m, rows, n, cols)]
    (section 6: [add_local(buffer, row_indices, col_indices)]): entry
    [(i, j)] of the buffer is added at [(rows[i], cols[j])]. *)
Definition mat_add_local (Ae : list (list R)) (rows cols : list nat)
  (A : nat -> nat -> R) : nat -> nat -> R :=
  mat_add_pairs Ae (indexed rows) (indexed cols) A.

(** Modelled from the spec: [A.zero_local(m, rows, diag)], the diagonal
    write of section 4.2 ("write 1.0 onto the diagonal for every
    boundary dof").  Only this write is modelled; in the properties below
    the other entries of these rows are zero before the call. *)
Definition mat_zero_local (rows : list nat) (diag : R) (A : nat -> nat -> R)
  : nat -> nat -> R :=
  fun r c => if bool_decide (r = c ∧ r ∈ rows) then diag else A r c.

(** Modelled from the spec: one entry of a vector scatter-add. *)
Definition vec_add_entry (r : nat) (x : R) (b : nat -> R) : nat -> R :=
  fun r' => if bool_decide (r' = r) then radd (b r') x else b r'.

(** Modelled from the spec: the scatter-add of a buffer, given the
    (local index, global index) pairs of its entries. *)
Definition vec_add_pairs (be : list R) (ps : list (nat * nat)) (b : nat -> R) : nat -> R :=
  foldl (fun b1 p => vec_add_entry p.2 (vcoeff be p.1) b1) b ps.

(** Modelled from the spec: [b.add_local(be.data(), m, rows)]: entry
    [i] of the buffer is added at [rows[i]]. *)
Definition vec_add_local (be : list R) (rows : list nat) (b : nat -> R) : nat -> R :=
  vec_add_pairs be (indexed rows) b.

(** Modelled from the spec: one entry of [set_local] (section 4.5:
    "overwrite, not add"). *)
Definition vec_set_entry (r : nat) (x : R) (b : nat -> R) : nat -> R :=
  fun r' => if bool_decide (r' = r) then x else b r'.

(** Modelled from the spec: [b.set_local(values, n, rows)] (section 6:
    [set_local(values, indices)]). *)
Definition vec_set_local (values : list R) (rows : list nat) (b : nat -> R) : nat -> R :=
  foldl (fun b1 p => vec_set_entry p.1 p.2 b1) b (zip rows values).

(** ** Boundary maps *)

(** [boundary_values.find(ii) != boundary_values.end()]. *)
Definition is_bc (bv : gmap nat R) (ii : nat) : bool := bool_decide (is_Some (bv !! ii)).

(** The body shared by the three resolution loops, for the condition
    [bcs[k]] and the map of one axis: when the space [V] of that axis
    contains the function space of the condition, [get_boundary_values]
    merges the condition's pairs into the map, and [gather] follows when
    [MPI::size(mesh.mpi_comm()) > 1] and the method is not pointwise. *)
Definition collect_bc (V : SpaceId) (mesh : Mesh) (axis k : nat) (bc : DirichletBC)
  (bv : gmap nat R) : gmap nat R * list Event :=
  if contains (heap V) (bc_function_space bc) then
    let bv1 := get_boundary_values bc bv in
    if bool_decide (1 < mpi_size mesh) && negb (String.eqb (bc_method bc) "pointwise")
    then (gather bc bv1, [EvGetBoundaryValues k axis; EvGather k axis])
    else (bv1, [EvGetBoundaryValues k axis])
  else (bv, []).

(** The loop of [apply_bc] and [set_bc]: one map. *)
Definition boundary_values_of (V : SpaceId) (mesh : Mesh) (axis : nat)
  (bcs : list DirichletBC) : gmap nat R * list Event :=
  for_all (fun p bv => collect_bc V mesh axis p.1 p.2 bv) (indexed bcs) ∅.

(** The loop of matrix assembly: for each condition, axis 0 then axis 1. *)
Definition boundary_values_by_axis (V0 V1 : SpaceId) (mesh : Mesh)
  (bcs : list DirichletBC) : (gmap nat R * gmap nat R) * list Event :=
  for_all (fun p bvs =>
             let r0 := collect_bc V0 mesh 0 p.1 p.2 bvs.1 in
             let r1 := collect_bc V1 mesh 1 p.1 p.2 bvs.2 in
             ((r0.1, r1.1), r0.2 ++ r1.2))
          (indexed bcs) (∅, ∅).

(** ** Single-form matrix assembly: [assemble(PETScMatrix&, const Form&, bcs)] *)

(** Zero rows/columns for Dirichlet bcs. *)
Definition zero_bc_rows (bv : gmap nat R) (dmap0 : list nat) (Ae : list (list R))
  : list (list R) :=
  foldl (fun M i =>
           match dmap0 !! i with
           | Some ii => if is_bc bv ii then row_setZero i M else M
           | None => M
           end) Ae (seq 0 (length dmap0)).

Definition zero_bc_cols (bv : gmap nat R) (dmap1 : list nat) (Ae : list (list R))
  : list (list R) :=
  foldl (fun M j =>
           match dmap1 !! j with
           | Some jj => if is_bc bv jj then col_setZero j M else M
           | None => M
           end) Ae (seq 0 (length dmap1)).

(** The element matrix of cell [c] as it is handed to [add_local]. *)
Definition cell_matrix (a : Form) (bv0 bv1 : gmap nat R) (c : nat) : list (list R) :=
  let dmap0 := cell_dofs (heap (function_space a 0)) c in
  let dmap1 := cell_dofs (heap (function_space a 1)) c in
  let Ae := tabulate_matrix a c (mat_setZero (length dmap0) (length dmap1)) in
  let Ae := zero_bc_rows bv0 dmap0 Ae in
  zero_bc_cols bv1 dmap1 Ae.

(** The body of the cell loop. *)
Definition assemble_cell (Aid : MatId) (a : Form) (bv0 bv1 : gmap nat R) (c : nat)
  (A : nat -> nat -> R) : (nat -> nat -> R) * list Event :=
  let dmap0 := cell_dofs (heap (function_space a 0)) c in
  let dmap1 := cell_dofs (heap (function_space a 1)) c in
  let Ae := cell_matrix a bv0 bv1 c in
  (mat_add_local Ae dmap0 dmap1 A, [EvTabulate c; EvMatAddLocal Aid Ae dmap0 dmap1]).

(** [A] is a plain (not nested) matrix: [None] when [A.empty()]. *)
Definition assemble_form (Aid : MatId) (A : option (nat -> nat -> R)) (a : Form)
  (bcs : list DirichletBC) : (nat -> nat -> R) * list Event :=
  let i0 := match A with
            | None => (mat_init, [EvMatInit Aid])
            | Some m => (m, [])
            end in
  let mesh := form_mesh a in
  let V0 := function_space a 0 in
  let V1 := function_space a 1 in
  let bvs := boundary_values_by_axis V0 V1 mesh bcs in
  let cl := for_all (assemble_cell Aid a bvs.1.1 bvs.1.2) (mesh_cells mesh) i0.1 in
  let t := i0.2 ++ bvs.2 ++ cl.2 ++ [EvMatApply Aid] in
  if bool_decide (V0 = V1) then
    let rows := (map_to_list bvs.1.1).*1 in
    (mat_zero_local rows rone cl.1, t ++ [EvMatZeroLocal Aid rows rone])
  else (cl.1, t).

(** ** Single-form vector assembly: [assemble(PETScVector&, const Form&)] *)

Definition assemble_vec_cell (L : Form) (c : nat) (b : nat -> R)
  : (nat -> R) * list Event :=
  let dmap := cell_dofs (heap (function_space L 0)) c in
  let be := tabulate_vector L c (vec_setZero (length dmap)) in
  (vec_add_local be dmap b, [EvTabulate c; EvVecAddLocal be dmap]).

Definition assemble_vec_form (b : PETScVector) (L : Form) : (nat -> R) * list Event :=
  let i0 := match b with
            | VecEmpty => (vec_init, [EvVecInit])
            | VecData x => (x, [])
            end in
  let cl := for_all (assemble_vec_cell L) (mesh_cells (form_mesh L)) i0.1 in
  (cl.1, i0.2 ++ cl.2 ++ [EvVecApply]).

(** ** Lifting correction: [apply_bc(PETScVector&, const Form&, bcs)] *)

(** [be -= Ae.col(j) * bc->second] for every constrained column [j]. *)
Definition lifting_vector (bv : gmap nat R) (dmap1 : list nat) (Ae : list (list R))
  (be : list R) : list R :=
  foldl (fun be1 j =>
           match dmap1 !! j with
           | Some jj =>
               match bv !! jj with
               | Some v => zip_with rsub be1 ((fun x => rmul x v) <$> col j Ae)
               | None => be1
               end
           | None => be1
           end) be (seq 0 (length dmap1)).

(** The work on a cell that has a boundary dof, given the two index
    arrays [dmap0] and [dmap1] of the source. *)
Definition lift_cell (a : Form) (bv : gmap nat R) (c : nat) (dmap0 dmap1 : list nat)
  (b : nat -> R) : (nat -> R) * list Event :=
  let Ae := tabulate_matrix a c (mat_setZero (length dmap0) (length dmap1)) in
  let Ae := if bool_decide (function_space a 0 = function_space a 1)
            then zero_bc_rows bv dmap0 Ae
            else Ae in
  let be := lifting_vector bv dmap1 Ae (vec_setZero (length dmap0)) in
  (vec_add_local be dmap0 b, [EvTabulate c; EvVecAddLocal be dmap0]).

(** The body of the cell loop.  As in the source, [dmap0] is read from
    [dofmap1]: [auto dmap0 = dofmap1->cell_dofs(cell.index());]. *)
Definition apply_bc_cell (a : Form) (bv : gmap nat R) (c : nat) (b : nat -> R)
  : (nat -> R) * list Event :=
  let dmap1 := cell_dofs (heap (function_space a 1)) c in
  let has_bc := existsb (is_bc bv) dmap1 in
  if negb has_bc then (b, [])
  else
    let dmap0 := cell_dofs (heap (function_space a 1)) c in
    lift_cell a bv c dmap0 dmap1 b.

Definition apply_bc (b : nat -> R) (a : Form) (bcs : list DirichletBC)
  : (nat -> R) * list Event :=
  let mesh := form_mesh a in
  let bvs := boundary_values_of (function_space a 1) mesh 1 bcs in
  let cl := for_all (apply_bc_cell a bvs.1) (mesh_cells mesh) b in
  (cl.1, bvs.2 ++ cl.2 ++ [EvVecApply]).

(** The lifting correction as section 4.4 of the specification words
    it: the correction vector is scattered with the local-to-global map
    of axis 0. *)
Definition apply_bc_cell_axis0 (a : Form) (bv : gmap nat R) (c : nat) (b : nat -> R)
  : (nat -> R) * list Event :=
  let dmap1 := cell_dofs (heap (function_space a 1)) c in
  let has_bc := existsb (is_bc bv) dmap1 in
  if negb has_bc then (b, [])
  else
    let dmap0 := cell_dofs (heap (function_space a 0)) c in
    lift_cell a bv c dmap0 dmap1 b.

Definition apply_bc_axis0 (b : nat -> R) (a : Form) (bcs : list DirichletBC)
  : (nat -> R) * list Event :=
  let mesh := form_mesh a in
  let bvs := boundary_values_of (function_space a 1) mesh 1 bcs in
  let cl := for_all (apply_bc_cell_axis0 a bvs.1) (mesh_cells mesh) b in
  (cl.1, bvs.2 ++ cl.2 ++ [EvVecApply]).

(** ** Boundary value overwrite: [set_bc] *)

Definition set_bc (b : nat -> R) (L : Form) (bcs : list DirichletBC)
  : (nat -> R) * list Event :=
  let bvs := boundary_values_of (function_space L 0) (form_mesh L) 0 bcs in
  let rows := (map_to_list bvs.1).*1 in
  let values := (map_to_list bvs.1).*2 in
  (vec_set_local values rows b, bvs.2 ++ [EvVecSetLocal values rows; EvVecApply]).

(** ** Matrix assembly: [assemble(PETScMatrix& A)] *)

(** [const bool block_matrix = _a.size() > 1 or _a[0].size() > 1;] *)
Definition block_matrix (a : list (list (option Form))) : Error + bool :=
  if bool_decide (1 < length a) then inr true
  else match a !! 0 with
       | Some row0 => inr (bool_decide (1 < length row0))
       | None => inl OutOfRange
       end.

(** The loop that fills [mats]: one initialised matrix per form of the
    table, a null per absent entry, in row-major order. *)
Definition init_blocks (a : list (list (option Form)))
  : list (option (nat -> nat -> R)) * list Event :=
  for_all (fun p mats =>
             for_all (fun q mats1 =>
                        match q.2 with
                        | Some _ => (mats1 ++ [Some mat_init], [EvMatInit (SubMat p.1 q.1)])
                        | None => (mats1 ++ [None], [])
                        end) (indexed p.2) mats)
          (indexed a) [].

(** [MatNestSetSubMats(A.mat(), nr, NULL, nc, NULL, petsc_mats.data())]
    reads [nr * nc] handles from the array. *)
Definition MatNestSetSubMats (nr nc : nat) (mats : list (option (nat -> nat -> R)))
  (A : PETScMatrix) : Run PETScMatrix :=
  if bool_decide (nr * nc ≤ length mats)
  then mkRun None (MatNest nr nc (take (nr * nc) mats)) [EvNestSetSubMats nr nc]
  else throw OutOfRange A.

(** [*_a[0][0]]. *)
Definition form00 (a : list (list (option Form))) : Error + Form :=
  match a !! 0 with
  | None => inl OutOfRange
  | Some row0 =>
      match row0 !! 0 with
      | None => inl OutOfRange
      | Some None => inl NullPointer
      | Some (Some a00) => inr a00
      end
  end.

(** The [if (A.empty()) ... else throw] part. *)
Definition init_matrix (asm : Assembler) (block : bool) (A : PETScMatrix)
  : Run PETScMatrix :=
  match A with
  | MatEmpty =>
      if block then
        match _a asm !! 0 with
        | Some row0 =>
            and_then (lift (A, (init_blocks (_a asm)).2))
                     (MatNestSetSubMats (length (_a asm)) (length row0)
                                        (init_blocks (_a asm)).1)
        | None => throw OutOfRange A
        end
      else
        match form00 (_a asm) with
        | inl e => throw e A
        | inr _ => mkRun None (MatAIJ mat_init) [EvMatInit WholeMat]
        end
  | _ => throw NotImplemented A
  end.

(** [MatNestGetSubMat(A.mat(), i, j, &subA); PETScMatrix mat(subA);
    this->assemble(mat, *_a[i][j], _bcs);] -- [mat] is a view: what is
    assembled into it is assembled into the block of [A]. *)
Definition assemble_block (i j : nat) (f : Form) (bcs : list DirichletBC)
  (A : PETScMatrix) : Run PETScMatrix :=
  match A with
  | MatNest nr nc subs =>
      if bool_decide (i < nr ∧ j < nc) then
        match subs !! (i * nc + j) with
        | Some (Some m) =>
            let r := assemble_form (SubMat i j) (Some m) f bcs in
            mkRun None (MatNest nr nc (<[i * nc + j := Some r.1]> subs)) r.2
        | _ => throw NullPointer A
        end
      else throw PetscError A
  | _ => throw PetscError A
  end.

Definition assemble_blocks (a : list (list (option Form))) (bcs : list DirichletBC)
  (A : PETScMatrix) : Run PETScMatrix :=
  for_each (fun p A1 =>
              for_each (fun q A2 =>
                          match q.2 with
                          | Some f => assemble_block p.1 q.1 f bcs A2
                          | None => ret A2
                          end) (indexed p.2) A1)
           (indexed a) A.

(** [this->assemble(A, *_a[0][0], _bcs);] *)
Definition assemble_plain (a : list (list (option Form))) (bcs : list DirichletBC)
  (A : PETScMatrix) : Run PETScMatrix :=
  match form00 a with
  | inl e => throw e A
  | inr a00 =>
      match A with
      | MatEmpty => let r := assemble_form WholeMat None a00 bcs in
                    mkRun None (MatAIJ r.1) r.2
      | MatAIJ m => let r := assemble_form WholeMat (Some m) a00 bcs in
                    mkRun None (MatAIJ r.1) r.2
      | MatNest _ _ _ => throw PetscError A
      end
  end.

Definition assemble_matrix (asm : Assembler) (A : PETScMatrix) : Run PETScMatrix :=
  match block_matrix (_a asm) with
  | inl e => throw e A
  | inr block =>
      and_then (init_matrix asm block A) (fun A1 =>
      and_then (if block then assemble_blocks (_a asm) (_bcs asm) A1
                else assemble_plain (_a asm) (_bcs asm) A1) (fun A2 =>
      mkRun None A2 [EvMatApply WholeMat]))
  end.

(** ** Vector assembly: [assemble(PETScVector& b)] *)

(** The loops over [i < _l.size()] and [j < _a[i].size()], each entry
    dereferenced as it stands. *)
Definition lift_rows (asm : Assembler) (x : nat -> R) : Run (nat -> R) :=
  for_each (fun i x1 =>
              match _a asm !! i with
              | None => throw OutOfRange x1
              | Some row =>
                  for_each (fun f x2 =>
                              match f with
                              | Some a => lift (apply_bc x2 a (_bcs asm))
                              | None => throw NullPointer x2
                              end) row x1
              end) (seq 0 (length (_l asm))) x.

Definition assemble_vector (asm : Assembler) (b : PETScVector) : Run PETScVector :=
  match _l asm !! 0 with
  | None => throw OutOfRange b
  | Some L0 =>
      let r := and_then (lift (assemble_vec_form b L0)) (fun x1 =>
               and_then (lift_rows asm x1) (fun x2 =>
               lift (set_bc x2 L0 (_bcs asm)))) in
      mkRun (status r) (VecData (final r)) (trace r)
  end.



(** ** Combined assembly: [assemble(PETScMatrix& A, PETScVector& b)] *)

Definition assemble_system (asm : Assembler) (Ab : PETScMatrix * PETScVector)
  : Run (PETScMatrix * PETScVector) :=
  and_then (let r := assemble_matrix asm Ab.1 in
            mkRun (status r) (final r, Ab.2) (trace r)) (fun Ab1 =>
           (let r := assemble_vector asm Ab1.2 in
            mkRun (status r) (Ab1.1, final r) (trace r))).

(** ** Vocabulary of the properties *)



(** The events of one single-form assembly into an initialised matrix
    (they do not depend on the entries of the matrix). *)
Definition form_trace (Aid : MatId) (a : Form) (bcs : list DirichletBC) : list Event :=
  (assemble_form Aid (Some mat_init) a bcs).2.

(** The events of the block loop: one single-form assembly per
    non-absent entry, in row-major order. *)
Definition blocks_trace (a : list (list (option Form))) (bcs : list DirichletBC)
  : list Event :=
  flat_map (fun p =>
              flat_map (fun q =>
                          match q.2 with
                          | Some f => form_trace (SubMat p.1 q.1) f bcs
                          | None => []
                          end) (indexed p.2)) (indexed a).

(** [A] is the nested matrix of the table [a] (with [nc] columns):
    it holds a sub-matrix wherever the table holds a form. *)
Definition nest_for (a : list (list (option Form))) (nc : nat) (A : PETScMatrix) : Prop :=
  ∃ subs, A = MatNest (length a) nc subs ∧
          Forall2 (fun (m : option (nat -> nat -> R)) (f : option Form) =>
                     is_Some f -> is_Some m) subs (concat a).

(** The sub-block at position [(i, j)] of the nest, for the table
    entry [e]: null for an absent entry; otherwise the freshly initialised
    matrix, or, once [assembled], what the single-form assembly of the
    entry makes of it. *)
Definition block_entry (bcs : list DirichletBC) (assembled : bool) (i j : nat)
  (e : option Form) : option (nat -> nat -> R) :=
  match e with
  | None => None
  | Some f =>
      Some (if assembled
            then (assemble_form (SubMat i j) (Some mat_init) f bcs).1
            else mat_init)
  end.

(** The sub-blocks [subs] of a nest with [nc] columns hold, for every
    entry of the table, its [block_entry]; [V] tells which entries have
    been assembled. *)
Definition blocks_state (a : list (list (option Form))) (nc : nat)
  (bcs : list DirichletBC) (V : nat -> nat -> bool)
  (subs : list (option (nat -> nat -> R))) : Prop :=
  ∀ i j row e, a !! i = Some row → row !! j = Some e →
               subs !! (i * nc + j) = Some (block_entry bcs (V i j) i j e).

(** The positions of the non-absent entries of the table, row by row. *)
Definition present_blocks (a : list (list (option Form))) : list (nat * nat) :=
  flat_map (fun p =>
              flat_map (fun q =>
                          match q.2 with
                          | Some _ => [(p.1, q.1)]
                          | None => []
                          end) (indexed p.2)) (indexed a).

(** The local dof [i] of a cell with index array [dmap] is
    boundary-constrained. *)
Definition bc_at (bv : gmap nat R) (dmap : list nat) (i : nat) : bool :=
  match dmap !! i with
  | Some ii => is_bc bv ii
  | None => false
  end.

(** Entry [i] of the correction vector of a cell: from zero, for every
    constrained column [j] with value [v], subtract [Ae(i, j) * v]. *)
Definition lifting_entry (bv : gmap nat R) (dmap1 : list nat) (Ae : list (list R))
  (i : nat) : R :=
  foldl (fun acc j =>
           match dmap1 !! j ≫= (bv !!.) with
           | Some v => rsub acc (rmul (coeff Ae i j) v)
           | None => acc
           end) rzero (seq 0 (length dmap1)).

(** The sum of [f x] over the elements [x] of a list that satisfy [P]. *)
Definition sum_over {X} (P : X -> bool) (f : X -> R) (xs : list X) : R :=
  foldr (fun x acc => if P x then radd (f x) acc else acc) rzero xs.

(** Condition [bcs[k]] takes part in the boundary map of the space
    [V]; it is gathered for it. *)
Definition resolves (V : SpaceId) (bcs : list DirichletBC) (k : nat) : Prop :=
  ∃ bc, bcs !! k = Some bc ∧ contains (heap V) (bc_function_space bc) = true.

Definition gathers (V : SpaceId) (mesh : Mesh) (bcs : list DirichletBC) (k : nat) : Prop :=
  ∃ bc, bcs !! k = Some bc ∧ contains (heap V) (bc_function_space bc) = true ∧
        1 < mpi_size mesh ∧ bc_method bc ≠ "pointwise"%string.

(** What one condition does to a boundary map: nothing when its space
    is not contained in [V]; otherwise its pairs are merged in, and the
    map is gathered when the run is distributed and the method is not
    pointwise. *)
Definition merge_bc (V : SpaceId) (mesh : Mesh) (bv : gmap nat R) (bc : DirichletBC)
  : gmap nat R :=
  if contains (heap V) (bc_function_space bc) then
    if bool_decide (1 < mpi_size mesh ∧ bc_method bc ≠ "pointwise"%string)
    then gather bc (get_boundary_values bc bv)
    else get_boundary_values bc bv
  else bv.

(** The events of [collect_bc] (they do not depend on the map). *)
Definition bc_events (V : SpaceId) (mesh : Mesh) (axis : nat) (p : nat * DirichletBC)
  : list Event :=
  (collect_bc V mesh axis p.1 p.2 ∅).2.

Definition is_bc_event (e : Event) : bool :=
  match e with
  | EvGetBoundaryValues _ _ | EvGather _ _ => true
  | _ => false
  end.

Definition is_mat_cell_event (e : Event) : bool :=
  match e with
  | EvTabulate _ | EvMatAddLocal _ _ _ _ => true
  | _ => false
  end.

Definition is_vec_cell_event (e : Event) : bool :=
  match e with
  | EvTabulate _ | EvVecAddLocal _ _ => true
  | _ => false
  end.

Definition is_mat_init (e : Event) : bool :=
  match e with EvMatInit _ => true | _ => false end.

(** The gathers of boundary maps and the finalisations of matrices and
    vectors. *)
Definition is_gather_or_apply (e : Event) : bool :=
  match e with
  | EvGather _ _ | EvMatApply _ | EvVecApply => true
  | _ => false
  end.

(** Two conditions on the same function space with the same method
    (their boundary values may differ). *)
Definition same_space_and_method (bc bc' : DirichletBC) : Prop :=
  bc_function_space bc = bc_function_space bc' ∧ bc_method bc = bc_method bc'.


Definition is_mat_apply (e : Event) : bool :=
  match e with EvMatApply _ => true | _ => false end.

Definition is_zero_local (e : Event) : bool :=
  match e with EvMatZeroLocal _ _ _ => true | _ => false end.

End Model.

Arguments mkRun {R S} _ _ _.
Arguments status {R S} _.
Arguments final {R S} _.
Arguments trace {R S} _.
Arguments mkForm {R} _ _ _.
Arguments mkDirichletBC {R} _ _ _ _.
Arguments mkAssembler {R} _ _ _.
Arguments MatEmpty {R}.
Arguments VecEmpty {R}.

(** ** A concrete scalar type and concrete systems *)

#[global] Instance Z_scalar : Scalar Z := {|
  rzero := 0%Z;
  rone := 1%Z;
  radd := Z.add;
  rsub := Z.sub;
  rmul := Z.mul
|}.

Module Demo.

(** Two cells on an interval.  Space [0] is continuous piecewise linear
    (three dofs, the middle one shared); space [1] is discontinuous
    piecewise linear (two dofs of its own per cell). *)
Definition P1 : FunctionSpace := mkFunctionSpace
  (fun c => match c with 0 => [0; 1] | 1 => [1; 2] | _ => [] end)
  (fun V => bool_decide (V = 0)).

Definition DG1 : FunctionSpace := mkFunctionSpace
  (fun c => match c with 0 => [0; 1] | 1 => [2; 3] | _ => [] end)
  (fun V => bool_decide (V = 1)).

Definition heap (V : SpaceId) : FunctionSpace :=
  match V with 0 => P1 | _ => DG1 end.

Definition mesh : Mesh := mkMesh [0; 1] 1.

(** Element tensor [[1 2] [3 4]] on every cell. *)
Definition kernel (c i j : nat) : Z := (1 + 2 * Z.of_nat i + Z.of_nat j)%Z.

(** A square form on the continuous space, and a rectangular one with
    test space [0] and trial space [1]. *)
Definition a_square : Form := mkForm mesh (fun _ => 0) kernel.

Definition a_rect : Form := mkForm mesh (fun axis => axis) kernel.

Definition L0 : Form := mkForm mesh (fun _ => 0) (fun c i _ => (10 + Z.of_nat i)%Z).

(** Dof [0] of the continuous space is fixed to [5]; dof [2] of the
    discontinuous space is fixed to [5]. *)
Definition bc_left : DirichletBC :=
  mkDirichletBC 0 "topological" (fun m => <[0 := 5%Z]> m) (fun m => m).

Definition bc_dg : DirichletBC :=
  mkDirichletBC 1 "topological" (fun m => <[2 := 5%Z]> m) (fun m => m).

Definition bvec : nat -> Z := fun _ => 0%Z.



(** A single-field system, and a 1 x 2 block system on a one-cell mesh. *)
Definition asm_plain : Assembler := mkAssembler [[Some a_square]] [L0] [bc_left].

Definition mesh1 : Mesh := mkMesh [0] 1.

Definition a_one_cell : Form := mkForm mesh1 (fun _ => 0) kernel.

Definition asm_block : Assembler :=
  mkAssembler [[Some a_one_cell; Some a_one_cell]] [L0] [bc_left].

End Demo.

(** * Properties *)

(** ** Runs and loops *)

Section RunFacts.
Context {R : Type} {SR : Scalar R}.

Lemma and_then_ok {S} (r : Run (R:=R) S) (f : S -> Run (R:=R) S) :
  status r = None ->
  and_then r f = mkRun (status (f (final r))) (final (f (final r)))
                       (trace r ++ trace (f (final r))).
Proof. intros Hr. unfold and_then. by rewrite Hr. Qed.

Lemma and_then_lift {S} (p : S * list (Event (R:=R))) (f : S -> Run (R:=R) S) :
  and_then (lift p) f = mkRun (status (f p.1)) (final (f p.1)) (p.2 ++ trace (f p.1)).
Proof. reflexivity. Qed.









End RunFacts.

(** ** Vector assembly *)

Section VectorAssembly.
Context {R : Type} {SR : Scalar R} (heap : SpaceId -> FunctionSpace).










End VectorAssembly.



(** ** Matrix assembly *)

Section MatrixAssembly.
Context {R : Type} {SR : Scalar R} (heap : SpaceId -> FunctionSpace).

(** C4.  When the matrix handed to [assemble(PETScMatrix&)] is already
    initialised, the run does not return normally, the matrix is the one
    that was handed in and no backend call has been made; the run ends
    with "Not implemented" whenever the table of forms has a first row
    (the first statement of the function reads [_a[0]]). *)
Theorem assemble_matrix_initialised (asm : Assembler (R:=R)) (A : PETScMatrix) :
  A ≠ MatEmpty ->
  final (assemble_matrix heap asm A) = A ∧
  trace (assemble_matrix heap asm A) = [] ∧
  status (assemble_matrix heap asm A) ≠ None ∧
  (_a asm ≠ [] -> assemble_matrix heap asm A = mkRun (Some NotImplemented) A []).
Proof.
  intros HA.
  assert (Hinit : forall blk, init_matrix asm blk A = throw NotImplemented A).
  { intros blk. unfold init_matrix. by destruct A. }
  unfold assemble_matrix, block_matrix.
  destruct (_a asm) as [|row0 rest] eqn:E.
  - simpl. by repeat split.
  - case_bool_decide; cbn [lookup list_lookup]; rewrite Hinit; by repeat split.
Qed.

(** C10.  The combined assembly is the matrix entry point followed by
    the vector entry point: the matrix is the one [assemble(A)] leaves,
    the vector the one [assemble(b)] leaves, the trace the two traces
    one after the other; when the matrix run fails the vector is not
    touched. *)
Theorem assemble_system_sequential (asm : Assembler (R:=R)) (A : PETScMatrix)
  (b : PETScVector) :
  assemble_system heap asm (A, b) =
  match status (assemble_matrix heap asm A) with
  | Some e => mkRun (Some e) (final (assemble_matrix heap asm A), b)
                    (trace (assemble_matrix heap asm A))
  | None => mkRun (status (assemble_vector heap asm b))
                  (final (assemble_matrix heap asm A), final (assemble_vector heap asm b))
                  (trace (assemble_matrix heap asm A) ++ trace (assemble_vector heap asm b))
  end.
Proof.
  unfold assemble_system, and_then. cbn [fst snd status final trace].
  destruct (status (assemble_matrix heap asm A)) eqn:E; rewrite ?E; reflexivity.
Qed.

End MatrixAssembly.

(** C4, witness: a single-field system and a matrix that is already
    initialised. *)
Lemma assemble_matrix_initialised_witness :
  assemble_matrix Demo.heap Demo.asm_plain (MatAIJ mat_init)
  = mkRun (Some NotImplemented) (MatAIJ mat_init) [].
Proof.
  refine (proj2 (proj2 (proj2 (assemble_matrix_initialised Demo.heap Demo.asm_plain
                                 (MatAIJ mat_init) _))) _).
  - discriminate.
  - discriminate.
Defined.

(** ** Traces of the loops *)

Section Traces.
Context {R : Type} {SR : Scalar R} (heap : SpaceId -> FunctionSpace).

Lemma for_all_trace_Forall {X St} (P : Event (R:=R) -> Prop)
  (body : X -> St -> St * list Event) xs :
  (forall x s, Forall P (body x s).2) ->
  forall s, Forall P (for_all body xs s).2.
Proof.
  intros Hb. induction xs as [|x xs IH]; intros s; simpl; [constructor|].
  apply Forall_app. split; [apply Hb | apply IH].
Qed.

Lemma for_all_trace_indep {X St} (body : X -> St -> St * list (Event (R:=R))) xs :
  (forall x s s', (body x s).2 = (body x s').2) ->
  forall s s', (for_all body xs s).2 = (for_all body xs s').2.
Proof.
  intros Hb. induction xs as [|x xs IH]; intros s s'; simpl; [done|].
  rewrite (Hb x s s'). f_equal. apply IH.
Qed.

Lemma filter_none (P : Event (R:=R) -> bool) (l : list Event) :
  Forall (fun e => P e = false) l -> filter (λ e, P e) l = [].
Proof.
  induction 1 as [|e l He _ IH]; [done|].
  rewrite filter_cons_False; [done|]. rewrite He. by intros [].
Qed.

Lemma elem_of_indexed {X} (l : list X) i x : (i, x) ∈ indexed l -> l !! i = Some x.
Proof.
  unfold indexed, indexed_from. intros Hin.
  apply elem_of_lookup_zip_with in Hin as (k & i' & x' & [= -> ->] & Hseq & Hl).
  apply lookup_seq in Hseq as [-> _]. done.
Qed.

Lemma indexed_snd {X} (l : list X) : (indexed l).*2 = l.
Proof. unfold indexed, indexed_from. apply snd_zip. by rewrite length_seq. Qed.

Lemma collect_bc_events V mesh axis k bc (bv : gmap nat R) :
  Forall (fun e => is_bc_event e = true) (collect_bc heap V mesh axis k bc bv).2.
Proof.
  unfold collect_bc. destruct (contains _ _); [|constructor].
  destruct (_ && _); repeat constructor.
Qed.

Lemma boundary_values_by_axis_events V0 V1 mesh (bcs : list (DirichletBC (R:=R))) :
  Forall (fun e => is_bc_event e = true) (boundary_values_by_axis heap V0 V1 mesh bcs).2.
Proof.
  unfold boundary_values_by_axis. apply for_all_trace_Forall.
  intros p bvs. simpl. apply Forall_app. split; apply collect_bc_events.
Qed.

Lemma mat_cells_events Aid (a : Form (R:=R)) bv0 bv1 cells A :
  Forall (fun e => is_mat_cell_event e = true)
         (for_all (assemble_cell heap Aid a bv0 bv1) cells A).2.
Proof. apply for_all_trace_Forall. intros c s. repeat constructor. Qed.

(** The events of a single-form assembly: initialisation if the matrix
    is empty, boundary-map resolution, the cell loop, the finalisation,
    and the diagonal write when the two spaces are the same object. *)
Lemma assemble_form_trace Aid A (a : Form (R:=R)) bcs :
  ∃ t_init t_bc t_cells t_diag,
    (assemble_form heap Aid A a bcs).2
    = t_init ++ t_bc ++ t_cells ++ [EvMatApply Aid] ++ t_diag ∧
    Forall (fun e => is_mat_init e = true) t_init ∧
    t_bc = (boundary_values_by_axis heap (function_space a 0) (function_space a 1)
              (form_mesh a) bcs).2 ∧
    Forall (fun e => is_mat_cell_event e = true) t_cells ∧
    Forall (fun e => is_zero_local e = true) t_diag.
Proof.
  unfold assemble_form.
  set (i0 := match A with None => _ | Some m => _ end).
  set (bvs := boundary_values_by_axis _ _ _ _ _).
  set (cl := for_all _ _ _).
  exists i0.2, bvs.2, cl.2.
  case_bool_decide.
  - eexists [_]. simpl. split; [by rewrite <- !app_assoc|].
    split; [destruct A; repeat constructor|].
    split; [done|].
    split; [apply mat_cells_events | repeat constructor].
  - exists []. simpl. split; [done|].
    split; [destruct A; repeat constructor|].
    split; [done|].
    split; [apply mat_cells_events | constructor].
Qed.

(** A single-form assembly finalises its own matrix once, and no other. *)
Lemma assemble_form_applies Aid A (a : Form (R:=R)) bcs :
  filter (λ e, is_mat_apply e) (assemble_form heap Aid A a bcs).2 = [EvMatApply Aid].
Proof.
  destruct (assemble_form_trace Aid A a bcs)
    as (t1 & t2 & t3 & t4 & -> & H1 & H2 & H3 & H4).
  rewrite !filter_app.
  rewrite (filter_none is_mat_apply t1), (filter_none is_mat_apply t2),
    (filter_none is_mat_apply t3), (filter_none is_mat_apply t4); [done|..].
  - eapply Forall_impl; [exact H4|]. by intros [].
  - eapply Forall_impl; [exact H3|]. by intros [].
  - subst t2. eapply Forall_impl; [apply boundary_values_by_axis_events|]. by intros [].
  - eapply Forall_impl; [exact H1|]. by intros [].
Qed.

Lemma assemble_form_trace_indep Aid m m' (a : Form (R:=R)) bcs :
  (assemble_form heap Aid (Some m) a bcs).2 = (assemble_form heap Aid (Some m') a bcs).2.
Proof.
  unfold assemble_form. cbn [fst snd].
  set (bvs := boundary_values_by_axis _ _ _ _ _).
  assert (Hc : (for_all (assemble_cell heap Aid a bvs.1.1 bvs.1.2)
                        (mesh_cells (form_mesh a)) m).2
               = (for_all (assemble_cell heap Aid a bvs.1.1 bvs.1.2)
                          (mesh_cells (form_mesh a)) m').2).
  { apply for_all_trace_indep. intros c s s'. reflexivity. }
  case_bool_decide; cbn [snd]; by rewrite Hc.
Qed.

End Traces.

(** ** Boundary-map resolution *)

Section BoundaryMaps.
Context {R : Type} {SR : Scalar R} (heap : SpaceId -> FunctionSpace).

Lemma for_all_trace_flat_map {X St} (body : X -> St -> St * list (Event (R:=R)))
  (tr : X -> list Event) xs :
  (forall x s, (body x s).2 = tr x) ->
  forall s, (for_all body xs s).2 = flat_map tr xs.
Proof.
  intros Hb. induction xs as [|x xs IH]; intros s; simpl; [done|].
  by rewrite Hb, IH.
Qed.

Lemma collect_bc_trace V mesh axis k (bc : DirichletBC (R:=R)) bv :
  (collect_bc heap V mesh axis k bc bv).2 = bc_events heap V mesh axis (k, bc).
Proof.
  unfold bc_events, collect_bc. cbn [fst snd].
  destruct (contains _ _); [|done]. by destruct (_ && _).
Qed.

Lemma collect_bc_map V mesh axis k (bc : DirichletBC (R:=R)) bv :
  (collect_bc heap V mesh axis k bc bv).1 = merge_bc heap V mesh bv bc.
Proof.
  unfold merge_bc, collect_bc. destruct (contains _ _); [|done].
  destruct (String.eqb_spec (bc_method bc) "pointwise") as [Heq|Hne].
  - rewrite andb_false_r. rewrite bool_decide_eq_false_2; [done|]. by intros [_ ?].
  - rewrite andb_true_r. case_bool_decide.
    + by rewrite bool_decide_eq_true_2.
    + rewrite bool_decide_eq_false_2; [done|]. by intros [? _].
Qed.

Lemma boundary_values_of_trace V mesh axis (bcs : list (DirichletBC (R:=R))) :
  (boundary_values_of heap V mesh axis bcs).2
  = flat_map (bc_events heap V mesh axis) (indexed bcs).
Proof.
  unfold boundary_values_of. apply for_all_trace_flat_map.
  intros [k bc] bv. apply collect_bc_trace.
Qed.

Lemma boundary_values_by_axis_trace V0 V1 mesh (bcs : list (DirichletBC (R:=R))) :
  (boundary_values_by_axis heap V0 V1 mesh bcs).2
  = flat_map (fun p => bc_events heap V0 mesh 0 p ++ bc_events heap V1 mesh 1 p)
             (indexed bcs).
Proof.
  unfold boundary_values_by_axis. apply for_all_trace_flat_map.
  intros [k bc] bvs. cbn [fst snd]. by rewrite !collect_bc_trace.
Qed.

(** The map a resolution loop builds: the conditions merged in order. *)
Lemma boundary_values_of_map V mesh axis (bcs : list (DirichletBC (R:=R))) :
  (boundary_values_of heap V mesh axis bcs).1 = foldl (merge_bc heap V mesh) ∅ bcs.
Proof.
  unfold boundary_values_of, indexed. generalize 0 at 1. generalize (∅ : gmap nat R).
  induction bcs as [|bc bcs IH]; intros bv k; [done|].
  cbn [indexed_from length seq zip zip_with for_all fst snd foldl].
  change (zip_with pair (seq (S k) (length bcs)) bcs) with (indexed_from (S k) bcs).
  rewrite collect_bc_map. apply IH.
Qed.

Lemma boundary_values_by_axis_map V0 V1 mesh (bcs : list (DirichletBC (R:=R))) :
  (boundary_values_by_axis heap V0 V1 mesh bcs).1
  = (foldl (merge_bc heap V0 mesh) ∅ bcs, foldl (merge_bc heap V1 mesh) ∅ bcs).
Proof.
  unfold boundary_values_by_axis, indexed.
  assert (Hgen : forall k (bv0 bv1 : gmap nat R),
             (for_all (fun (p : nat * DirichletBC (R:=R)) bvs =>
                         let r0 := collect_bc heap V0 mesh 0 p.1 p.2 bvs.1 in
                         let r1 := collect_bc heap V1 mesh 1 p.1 p.2 bvs.2 in
                         ((r0.1, r1.1), r0.2 ++ r1.2))
                      (indexed_from k bcs) (bv0, bv1)).1
             = (foldl (merge_bc heap V0 mesh) bv0 bcs,
                foldl (merge_bc heap V1 mesh) bv1 bcs)).
  { induction bcs as [|bc bcs IH]; intros k bv0 bv1; [done|].
    cbn [indexed_from length seq zip zip_with for_all fst snd foldl].
    change (zip_with pair (seq (S k) (length bcs)) bcs) with (indexed_from (S k) bcs).
    rewrite !collect_bc_map. apply IH. }
  apply Hgen.
Qed.

Lemma indexed_elem_of {X} (l : list X) i x : l !! i = Some x -> (i, x) ∈ indexed l.
Proof.
  intros Hi. unfold indexed, indexed_from.
  apply elem_of_lookup_zip_with. exists i, i, x. split; [done|]. split; [|done].
  apply lookup_seq. split; [done|]. by eapply lookup_lt_Some.
Qed.

Lemma bc_events_get V mesh axis k' (bc : DirichletBC (R:=R)) k ax :
  EvGetBoundaryValues k ax ∈ bc_events heap V mesh axis (k', bc) <->
  k = k' ∧ ax = axis ∧ contains (heap V) (bc_function_space bc) = true.
Proof.
  unfold bc_events, collect_bc. cbn [fst snd].
  destruct (contains _ _).
  - destruct (_ && _); cbn [snd]; rewrite ?elem_of_cons, elem_of_nil; split.
    + intros [[= -> ->]|[[=]|[]]]. done.
    + intros (-> & -> & _). by left.
    + intros [[= -> ->]|[]]. done.
    + intros (-> & -> & _). by left.
  - cbn [snd]. rewrite elem_of_nil. split; [done|]. by intros (_ & _ & ?).
Qed.

Lemma bc_events_gather V mesh axis k' (bc : DirichletBC (R:=R)) k ax :
  EvGather k ax ∈ bc_events heap V mesh axis (k', bc) <->
  k = k' ∧ ax = axis ∧ contains (heap V) (bc_function_space bc) = true ∧
  1 < mpi_size mesh ∧ bc_method bc ≠ "pointwise"%string.
Proof.
  unfold bc_events, collect_bc. cbn [fst snd].
  destruct (contains _ _).
  - destruct (String.eqb_spec (bc_method bc) "pointwise") as [Heq|Hne].
    + rewrite andb_false_r. cbn [snd]. rewrite ?elem_of_cons, elem_of_nil. split.
      * intros [[=]|[]].
      * by intros (_ & _ & _ & _ & ?).
    + rewrite andb_true_r. case_bool_decide as Hd; cbn [snd];
        rewrite ?elem_of_cons, elem_of_nil; split.
      * intros [[=]|[[= -> ->]|[]]]. done.
      * intros (-> & -> & _). right. by left.
      * intros [[=]|[]].
      * by intros (_ & _ & _ & ? & _).
  - cbn [snd]. rewrite elem_of_nil. split; [done|]. by intros (_ & _ & ? & _).
Qed.

Lemma resolution_get V mesh axis (bcs : list (DirichletBC (R:=R))) k ax :
  EvGetBoundaryValues k ax ∈ flat_map (bc_events heap V mesh axis) (indexed bcs) <->
  ax = axis ∧ resolves heap V bcs k.
Proof.
  rewrite list_elem_of_In, in_flat_map. split.
  - intros ([k' bc] & Hin & He). apply list_elem_of_In in Hin, He.
    apply bc_events_get in He as (-> & -> & Hc).
    apply elem_of_indexed in Hin. split; [done|]. by exists bc.
  - intros (-> & bc & Hk & Hc). exists (k, bc). split.
    + apply list_elem_of_In. by apply indexed_elem_of.
    + apply list_elem_of_In. by apply bc_events_get.
Qed.

Lemma resolution_gather V mesh axis (bcs : list (DirichletBC (R:=R))) k ax :
  EvGather k ax ∈ flat_map (bc_events heap V mesh axis) (indexed bcs) <->
  ax = axis ∧ gathers heap V mesh bcs k.
Proof.
  rewrite list_elem_of_In, in_flat_map. split.
  - intros ([k' bc] & Hin & He). apply list_elem_of_In in Hin, He.
    apply bc_events_gather in He as (-> & -> & Hc & Hd & Hm).
    apply elem_of_indexed in Hin. split; [done|]. by exists bc.
  - intros (-> & bc & Hk & Hc & Hd & Hm). exists (k, bc). split.
    + apply list_elem_of_In. by apply indexed_elem_of.
    + apply list_elem_of_In. by apply bc_events_gather.
Qed.

End BoundaryMaps.

(** ** Nested (block) matrix assembly *)

Section BlockAssembly.
Context {R : Type} {SR : Scalar R} (heap : SpaceId -> FunctionSpace).

Lemma lookup_concat_rect {X} (a : list (list X)) nc i j row :
  Forall (fun r => length r = nc) a ->
  a !! i = Some row -> j < nc ->
  concat a !! (i * nc + j) = row !! j.
Proof.
  intros Hrect. revert i. induction Hrect as [|r a Hr _ IH]; intros i Hi Hj; [done|].
  destruct i as [|i]; simpl in *.
  - injection Hi as ->. apply lookup_app_l. lia.
  - rewrite lookup_app_r by lia.
    replace (nc + i * nc + j - length r) with (i * nc + j) by lia.
    by apply IH.
Qed.

Lemma length_concat_rect {X} (a : list (list X)) nc :
  Forall (fun r => length r = nc) a -> length (concat a) = length a * nc.
Proof.
  induction 1 as [|r a Hr _ IH]; [done|]. simpl. rewrite length_app. lia.
Qed.

Lemma assemble_block_ok (a : list (list (option (Form (R:=R))))) nc bcs A i j row f :
  Forall (fun r => length r = nc) a ->
  nest_for a nc A ->
  a !! i = Some row -> row !! j = Some (Some f) ->
  ∃ A', assemble_block heap i j f bcs A
        = mkRun None A' (form_trace heap (SubMat i j) f bcs) ∧
        nest_for a nc A'.
Proof.
  intros Hrect (subs & -> & HF) Hi Hj.
  assert (Hilt : i < length a) by (by eapply lookup_lt_Some).
  assert (Hjlt : j < nc).
  { rewrite <- (proj1 (Forall_lookup _ _) Hrect i row Hi). by eapply lookup_lt_Some. }
  assert (Hc : concat a !! (i * nc + j) = Some (Some f)).
  { by rewrite (lookup_concat_rect a nc i j row). }
  destruct (Forall2_lookup_r _ _ _ _ _ HF Hc) as (m' & Hm' & Hsome).
  destruct Hsome as [m ->]; [by eexists|].
  unfold assemble_block. rewrite bool_decide_eq_true_2 by done. rewrite Hm'.
  eexists. split.
  - f_equal. unfold form_trace. apply assemble_form_trace_indep.
  - eexists. split; [done|].
    rewrite <- (list_insert_id (concat a) (i * nc + j) (Some f) Hc).
    apply Forall2_insert; [done|]. intros _. by eexists.
Qed.

Lemma assemble_row_ok (a : list (list (option (Form (R:=R))))) nc bcs i row qs :
  Forall (fun r => length r = nc) a ->
  a !! i = Some row ->
  (forall q, q ∈ qs -> row !! q.1 = Some q.2) ->
  forall A, nest_for a nc A ->
  ∃ A', for_each (fun q A2 =>
                    match q.2 with
                    | Some f => assemble_block heap i q.1 f bcs A2
                    | None => ret A2
                    end) qs A
        = mkRun None A'
            (flat_map (fun q => match q.2 with
                                | Some f => form_trace heap (SubMat i q.1) f bcs
                                | None => []
                                end) qs) ∧
        nest_for a nc A'.
Proof.
  intros Hrect Hi. induction qs as [|[j e] qs IH]; intros Hqs A HA.
  - exists A. by split.
  - assert (Hj : row !! j = Some e) by (apply (Hqs (j, e)); set_solver).
    assert (Hqs' : forall q, q ∈ qs -> row !! q.1 = Some q.2).
    { intros q Hq. apply Hqs. set_solver. }
    cbn [for_each flat_map fst snd]. destruct e as [f|].
    + destruct (assemble_block_ok a nc bcs A i j row f Hrect HA Hi Hj) as (A1 & -> & HA1).
      destruct (IH Hqs' A1 HA1) as (A' & HA' & Hn').
      exists A'. split; [|done]. rewrite and_then_ok by done. cbn [final trace status].
      rewrite HA'. reflexivity.
    + destruct (IH Hqs' A HA) as (A' & HA' & Hn').
      exists A'. split; [|done]. rewrite and_then_ok by done. cbn [final trace status ret].
      rewrite HA'. reflexivity.
Qed.

Lemma assemble_rows_ok (a : list (list (option (Form (R:=R))))) nc bcs ps :
  Forall (fun r => length r = nc) a ->
  (forall p, p ∈ ps -> a !! p.1 = Some p.2) ->
  forall A, nest_for a nc A ->
  ∃ A', for_each (fun p A1 =>
                    for_each (fun q A2 =>
                                match q.2 with
                                | Some f => assemble_block heap p.1 q.1 f bcs A2
                                | None => ret A2
                                end) (indexed p.2) A1) ps A
        = mkRun None A'
            (flat_map (fun p =>
                         flat_map (fun q => match q.2 with
                                            | Some f => form_trace heap (SubMat p.1 q.1) f bcs
                                            | None => []
                                            end) (indexed p.2)) ps) ∧
        nest_for a nc A'.
Proof.
  intros Hrect. induction ps as [|[i row] ps IH]; intros Hps A HA.
  - exists A. by split.
  - assert (Hi : a !! i = Some row) by (apply (Hps (i, row)); set_solver).
    assert (Hps' : forall p, p ∈ ps -> a !! p.1 = Some p.2).
    { intros p Hp. apply Hps. set_solver. }
    cbn [for_each flat_map fst snd].
    destruct (assemble_row_ok a nc bcs i row (indexed row) Hrect Hi
                (fun q Hq => elem_of_indexed row q.1 q.2
                               ltac:(by destruct q)) A HA) as (A1 & -> & HA1).
    destruct (IH Hps' A1 HA1) as (A' & HA' & Hn').
    exists A'. split; [|done]. rewrite and_then_ok by done. cbn [final trace status].
    rewrite HA'. reflexivity.
Qed.

Lemma init_blocks_shape (a : list (list (option (Form (R:=R))))) :
  (init_blocks a).1
  = map (fun o : option (Form (R:=R)) =>
           match o with Some _ => Some (mat_init (R:=R)) | None => None end) (concat a).
Proof.
  unfold init_blocks.
  assert (Hrow : forall (i : nat) (qs : list (nat * option (Form (R:=R))))
                        (mats : list (option (nat -> nat -> R))),
             (for_all (R:=R) (fun (q : nat * option (Form (R:=R))) mats1 =>
                         match q.2 with
                         | Some _ => (mats1 ++ [Some (mat_init (R:=R))],
                                      [EvMatInit (SubMat i q.1)])
                         | None => (mats1 ++ [None], [])
                         end) qs mats).1
             = mats ++ map (fun o : option (Form (R:=R)) =>
                              match o with Some _ => Some (mat_init (R:=R)) | None => None end)
                           (map snd qs)).
  { intros i qs. induction qs as [|[j e] qs IH]; intros mats; simpl.
    - by rewrite app_nil_r.
    - rewrite IH. destruct e; simpl; by rewrite <- app_assoc. }
  assert (Hrows : forall (ps : list (nat * list (option (Form (R:=R)))))
                         (mats : list (option (nat -> nat -> R))),
             (for_all (R:=R) (fun (p : nat * list (option (Form (R:=R)))) mats0 =>
                         for_all (R:=R) (fun (q : nat * option (Form (R:=R))) mats1 =>
                                    match q.2 with
                                    | Some _ => (mats1 ++ [Some (mat_init (R:=R))],
                                                 [EvMatInit (SubMat p.1 q.1)])
                                    | None => (mats1 ++ [None], [])
                                    end) (indexed p.2) mats0) ps mats).1
             = mats ++ map (fun o : option (Form (R:=R)) =>
                              match o with Some _ => Some (mat_init (R:=R)) | None => None end)
                           (concat (map snd ps))).
  { induction ps as [|[i row] ps IH]; intros mats; simpl.
    - by rewrite app_nil_r.
    - rewrite IH, Hrow. change (map snd (indexed row)) with ((indexed row).*2).
      rewrite indexed_snd, map_app, <- app_assoc. reflexivity. }
  rewrite Hrows. change (map snd (indexed a)) with ((indexed a).*2).
  rewrite indexed_snd. reflexivity.
Qed.

Lemma init_blocks_events (a : list (list (option (Form (R:=R))))) :
  Forall (fun e => is_mat_init e = true) (init_blocks a).2.
Proof.
  unfold init_blocks. apply for_all_trace_Forall. intros p mats.
  apply for_all_trace_Forall. intros q mats1. destruct (q.2); repeat constructor.
Qed.

Lemma init_blocks_nest (a : list (list (option (Form (R:=R))))) nc :
  Forall (fun r => length r = nc) a ->
  nest_for a nc (MatNest (length a) nc (take (length a * nc) (init_blocks a).1)).
Proof.
  intros Hrect. eexists. split; [done|].
  rewrite take_ge.
  - rewrite init_blocks_shape. apply Forall2_fmap_l. apply Forall_Forall2_diag.
    apply Forall_forall. intros [f|] _ Hs; [by eexists | by destruct Hs].
  - rewrite init_blocks_shape, length_map, (length_concat_rect a nc) by done. lia.
Qed.

Lemma blocks_trace_applies (a : list (list (option (Form (R:=R))))) bcs :
  filter (λ e, is_mat_apply e) (blocks_trace heap a bcs)
  = (fun ij => EvMatApply (SubMat ij.1 ij.2)) <$> present_blocks a.
Proof.
  unfold blocks_trace, present_blocks.
  induction (indexed a) as [|[i row] ps IH]; [done|].
  cbn [flat_map fst snd]. rewrite filter_app, fmap_app, IH. f_equal.
  induction (indexed row) as [|[j e] qs IHq]; [done|].
  cbn [flat_map fst snd]. rewrite filter_app, fmap_app, IHq. f_equal.
  destruct e as [f|]; [|done]. unfold form_trace. apply assemble_form_applies.
Qed.

(** C2 (amended).  For a nested form table (rectangular, with more than
    one row or column) and an empty matrix, the run returns; its events
    are the initialisation of the nest, then one single-form assembly
    per non-absent entry in row-major order, then the finalisation of
    the whole matrix, which is the last event.  The finalisations of
    the run are: one on the view of each non-absent sub-block, made by
    that block's own single-form assembly, and after all of them the one
    finalisation of the whole matrix. *)
Theorem assemble_matrix_block_finalize (asm : Assembler (R:=R)) (nc : nat) :
  block_matrix (_a asm) = inr true ->
  Forall (fun row => length row = nc) (_a asm) ->
  status (assemble_matrix heap asm MatEmpty) = None ∧
  trace (assemble_matrix heap asm MatEmpty)
  = ((init_blocks (_a asm)).2 ++ [EvNestSetSubMats (length (_a asm)) nc])
    ++ blocks_trace heap (_a asm) (_bcs asm) ++ [EvMatApply WholeMat] ∧
  filter (λ e, is_mat_apply e) (trace (assemble_matrix heap asm MatEmpty))
  = ((fun ij => EvMatApply (SubMat ij.1 ij.2)) <$> present_blocks (_a asm))
    ++ [EvMatApply WholeMat].
Proof.
  intros Hblock Hrect.
  assert (Hrun : ∃ A', assemble_matrix heap asm MatEmpty
                       = mkRun None A'
                           (((init_blocks (_a asm)).2
                             ++ [EvNestSetSubMats (length (_a asm)) nc])
                            ++ blocks_trace heap (_a asm) (_bcs asm)
                            ++ [EvMatApply WholeMat])).
  { unfold assemble_matrix. rewrite Hblock. unfold init_matrix.
    destruct (_a asm) as [|row0 rest] eqn:Ea.
    { unfold block_matrix in Hblock. simpl in Hblock. discriminate. }
    rewrite <- Ea in *. assert (H0 : _a asm !! 0 = Some row0) by (by rewrite Ea).
    rewrite H0.
    assert (Hn0 : length row0 = nc).
    { apply (proj1 (Forall_lookup _ _) Hrect 0 row0 H0). }
    rewrite Hn0. rewrite and_then_lift. cbn [fst snd].
    unfold MatNestSetSubMats. rewrite bool_decide_eq_true_2.
    2:{ rewrite init_blocks_shape, length_map, (length_concat_rect (_a asm) nc) by done.
        lia. }
    cbn [status final trace].
    destruct (assemble_rows_ok (_a asm) nc (_bcs asm) (indexed (_a asm)) Hrect
                (fun p Hp => elem_of_indexed (_a asm) p.1 p.2 ltac:(by destruct p))
                _ (init_blocks_nest (_a asm) nc Hrect)) as (A' & HA' & _).
    exists A'. rewrite and_then_ok by done. cbn [status final trace].
    unfold assemble_blocks. rewrite HA'. rewrite and_then_ok by done.
    cbn [status final trace]. reflexivity. }
  destruct Hrun as (A' & ->). cbn [status trace]. split; [done|]. split; [done|].
  rewrite !filter_app, blocks_trace_applies.
  rewrite (filter_none is_mat_apply (init_blocks (_a asm)).2).
  - reflexivity.
  - eapply Forall_impl; [apply init_blocks_events|]. by intros [].
Qed.

End BlockAssembly.

(** C2, witness: the 1 x 2 block system. *)
Lemma assemble_matrix_block_finalize_witness :
  filter (λ e, is_mat_apply e) (trace (assemble_matrix Demo.heap Demo.asm_block MatEmpty))
  = [EvMatApply (SubMat 0 0); EvMatApply (SubMat 0 1); EvMatApply WholeMat].
Proof.
  refine (proj2 (proj2 (assemble_matrix_block_finalize Demo.heap Demo.asm_block 2 _ _))).
  - reflexivity.
  - repeat constructor.
Defined.

(** C2, counterexample: in the 1 x 2 block system the run makes three
    finalisations, not one; the sub-block [(0, 0)] is finalised (and its
    diagonal written) before the sub-block [(0, 1)] is filled. *)
Lemma assemble_matrix_block_finalizes_each :
  trace (assemble_matrix Demo.heap Demo.asm_block MatEmpty)
  = [EvMatInit (SubMat 0 0); EvMatInit (SubMat 0 1); EvNestSetSubMats 1 2;
     EvGetBoundaryValues 0 0; EvGetBoundaryValues 0 1; EvTabulate 0;
     EvMatAddLocal (SubMat 0 0) [[0; 0]; [0; 4]]%Z [0; 1] [0; 1];
     EvMatApply (SubMat 0 0); EvMatZeroLocal (SubMat 0 0) [0] 1%Z;
     EvGetBoundaryValues 0 0; EvGetBoundaryValues 0 1; EvTabulate 0;
     EvMatAddLocal (SubMat 0 1) [[0; 0]; [0; 4]]%Z [0; 1] [0; 1];
     EvMatApply (SubMat 0 1); EvMatZeroLocal (SubMat 0 1) [0] 1%Z;
     EvMatApply WholeMat] ∧
  length (filter (λ e, is_mat_apply e)
            (trace (assemble_matrix Demo.heap Demo.asm_block MatEmpty))) ≠ 1.
Proof. split; [by vm_compute|]. vm_compute. discriminate. Qed.

(** ** Which conditions are resolved and gathered *)

Section Resolution.
Context {R : Type} {SR : Scalar R} (heap : SpaceId -> FunctionSpace).

Lemma not_elem_of_other_kind (P : Event (R:=R) -> bool) (Q : Event (R:=R) -> bool) e l :
  P e = true -> (forall e', Q e' = true -> P e' = false) ->
  Forall (fun e' => Q e' = true) l -> e ∉ l.
Proof.
  intros He HPQ Hl Hin. apply (proj1 (Forall_forall _ _) Hl) in Hin.
  apply HPQ in Hin. congruence.
Qed.

Lemma bc_event_in_assemble_form Aid A (a : Form (R:=R)) bcs e :
  is_bc_event e = true ->
  e ∈ (assemble_form heap Aid A a bcs).2 <->
  e ∈ (boundary_values_by_axis heap (function_space a 0) (function_space a 1)
         (form_mesh a) bcs).2.
Proof.
  intros He.
  destruct (assemble_form_trace heap Aid A a bcs)
    as (t1 & t2 & t3 & t4 & -> & H1 & -> & H3 & H4).
  rewrite !elem_of_app. split; [|tauto].
  intros [Hin|[Hin|[Hin|[Hin|Hin]]]]; [|done|..]; exfalso.
  - revert Hin. eapply (not_elem_of_other_kind is_bc_event is_mat_init); [done| |done].
    by intros [].
  - revert Hin. eapply (not_elem_of_other_kind is_bc_event is_mat_cell_event); [done| |done].
    by intros [].
  - apply list_elem_of_singleton in Hin. by subst e.
  - revert Hin. eapply (not_elem_of_other_kind is_bc_event is_zero_local); [done| |done].
    by intros [].
Qed.

Lemma vec_cells_events (a : Form (R:=R)) bv cells b :
  Forall (fun e => is_vec_cell_event e = true)
         (for_all (apply_bc_cell heap a bv) cells b).2.
Proof.
  apply for_all_trace_Forall. intros c s. unfold apply_bc_cell.
  destruct (negb _); repeat constructor.
Qed.

Lemma bc_event_in_apply_bc b (a : Form (R:=R)) bcs e :
  is_bc_event e = true ->
  e ∈ (apply_bc heap b a bcs).2 <->
  e ∈ (boundary_values_of heap (function_space a 1) (form_mesh a) 1 bcs).2.
Proof.
  intros He. unfold apply_bc. cbn [snd]. rewrite !elem_of_app. split; [|tauto].
  intros [Hin|[Hin|Hin]]; [done|..]; exfalso.
  - revert Hin.
    eapply (not_elem_of_other_kind is_bc_event is_vec_cell_event);
      [done| |apply vec_cells_events].
    by intros [].
  - apply list_elem_of_singleton in Hin. by subst e.
Qed.

Lemma bc_event_in_set_bc b (L : Form (R:=R)) bcs e :
  is_bc_event e = true ->
  e ∈ (set_bc heap b L bcs).2 <->
  e ∈ (boundary_values_of heap (function_space L 0) (form_mesh L) 0 bcs).2.
Proof.
  intros He. unfold set_bc. cbn [snd]. rewrite !elem_of_app. split; [|tauto].
  intros [Hin|Hin]; [done|]. exfalso.
  rewrite !elem_of_cons, elem_of_nil in Hin.
  destruct Hin as [->|[->|[]]]; discriminate.
Qed.

Lemma by_axis_get V0 V1 mesh (bcs : list (DirichletBC (R:=R))) k ax :
  EvGetBoundaryValues k ax ∈ (boundary_values_by_axis heap V0 V1 mesh bcs).2 <->
  (ax = 0 ∧ resolves heap V0 bcs k) ∨ (ax = 1 ∧ resolves heap V1 bcs k).
Proof.
  rewrite boundary_values_by_axis_trace, <- !resolution_get.
  rewrite !list_elem_of_In, !in_flat_map. split.
  - intros (p & Hp & He). apply in_app_or in He as [He|He]; [left|right]; eauto.
  - intros [(p & Hp & He)|(p & Hp & He)]; exists p; (split; [done|]);
      apply in_or_app; eauto.
Qed.

Lemma by_axis_gather V0 V1 mesh (bcs : list (DirichletBC (R:=R))) k ax :
  EvGather k ax ∈ (boundary_values_by_axis heap V0 V1 mesh bcs).2 <->
  (ax = 0 ∧ gathers heap V0 mesh bcs k) ∨ (ax = 1 ∧ gathers heap V1 mesh bcs k).
Proof.
  rewrite boundary_values_by_axis_trace, <- !resolution_gather.
  rewrite !list_elem_of_In, !in_flat_map. split.
  - intros (p & Hp & He). apply in_app_or in He as [He|He]; [left|right]; eauto.
  - intros [(p & Hp & He)|(p & Hp & He)]; exists p; (split; [done|]);
      apply in_or_app; eauto.
Qed.

(** C6.  In the three boundary-map resolutions -- single-form matrix
    assembly (axis 0 and axis 1), the lifting correction (axis 1 of the
    bilinear form) and [set_bc] (axis 0 of the linear form) -- the
    pairs of condition [k] are merged into the map of an axis exactly
    when the space of that axis contains the function space of the
    condition, and a gather is made for it exactly when, in addition,
    the mesh is distributed over more than one rank and the method of the
    condition is not pointwise.  Every map is the conditions merged in
    order. *)
Theorem gather_iff_distributed_non_pointwise (a L : Form (R:=R))
  (bcs : list DirichletBC) (Aid : MatId) (A : option (nat -> nat -> R))
  (b : nat -> R) (k : nat) :
  ((EvGetBoundaryValues k 0 ∈ (assemble_form heap Aid A a bcs).2
    <-> resolves heap (function_space a 0) bcs k) ∧
   (EvGather k 0 ∈ (assemble_form heap Aid A a bcs).2
    <-> gathers heap (function_space a 0) (form_mesh a) bcs k) ∧
   (EvGetBoundaryValues k 1 ∈ (assemble_form heap Aid A a bcs).2
    <-> resolves heap (function_space a 1) bcs k) ∧
   (EvGather k 1 ∈ (assemble_form heap Aid A a bcs).2
    <-> gathers heap (function_space a 1) (form_mesh a) bcs k)) ∧
  ((EvGetBoundaryValues k 1 ∈ (apply_bc heap b a bcs).2
    <-> resolves heap (function_space a 1) bcs k) ∧
   (EvGather k 1 ∈ (apply_bc heap b a bcs).2
    <-> gathers heap (function_space a 1) (form_mesh a) bcs k)) ∧
  ((EvGetBoundaryValues k 0 ∈ (set_bc heap b L bcs).2
    <-> resolves heap (function_space L 0) bcs k) ∧
   (EvGather k 0 ∈ (set_bc heap b L bcs).2
    <-> gathers heap (function_space L 0) (form_mesh L) bcs k)) ∧
  (boundary_values_by_axis heap (function_space a 0) (function_space a 1)
     (form_mesh a) bcs).1
  = (foldl (merge_bc heap (function_space a 0) (form_mesh a)) ∅ bcs,
     foldl (merge_bc heap (function_space a 1) (form_mesh a)) ∅ bcs) ∧
  (boundary_values_of heap (function_space a 1) (form_mesh a) 1 bcs).1
  = foldl (merge_bc heap (function_space a 1) (form_mesh a)) ∅ bcs ∧
  (boundary_values_of heap (function_space L 0) (form_mesh L) 0 bcs).1
  = foldl (merge_bc heap (function_space L 0) (form_mesh L)) ∅ bcs.
Proof.
  split; [|split; [|split; [|split; [|split]]]].
  - rewrite !bc_event_in_assemble_form by done.
    rewrite !by_axis_get, !by_axis_gather.
    repeat split;
      first [ intros [[_ ?]|[[=] _]]; done
            | intros [[[=] _]|[_ ?]]; done
            | intros ?; by left
            | intros ?; by right ].
  - rewrite !bc_event_in_apply_bc by done. rewrite !boundary_values_of_trace.
    rewrite resolution_get, resolution_gather. tauto.
  - rewrite !bc_event_in_set_bc by done. rewrite !boundary_values_of_trace.
    rewrite resolution_get, resolution_gather. tauto.
  - apply boundary_values_by_axis_map.
  - apply boundary_values_of_map.
  - apply boundary_values_of_map.
Qed.

End Resolution.

(** ** Element buffers *)

Section ElementBuffers.
Context {R : Type} {SR : Scalar R}.

Lemma zero_bc_rows_prefix (bv : gmap nat R) dmap0 (Ae : list (list R)) k :
  foldl (fun M i =>
           match dmap0 !! i with
           | Some ii => if is_bc bv ii then row_setZero i M else M
           | None => M
           end) Ae (seq 0 k)
  = imap (fun i row =>
            if bool_decide (i < k) && bc_at bv dmap0 i
            then replicate (length row) rzero else row) Ae.
Proof.
  induction k as [|k IH].
  - simpl. apply list_eq. intros i. rewrite list_lookup_imap.
    by destruct (Ae !! i).
  - rewrite seq_S, foldl_app, IH. simpl. apply list_eq. intros i.
    assert (Hother : i ≠ k ->
              (imap (fun i row =>
                       if bool_decide (i < k) && bc_at bv dmap0 i
                       then replicate (length row) rzero else row) Ae) !! i
              = (imap (fun i row =>
                         if bool_decide (i < S k) && bc_at bv dmap0 i
                         then replicate (length row) rzero else row) Ae) !! i).
    { intros Hik. rewrite !list_lookup_imap. destruct (Ae !! i); [|done]. simpl.
      by rewrite (bool_decide_ext (i < k) (i < S k)) by lia. }
    assert (Hsame : bc_at bv dmap0 k = false ->
              (imap (fun i row =>
                       if bool_decide (i < k) && bc_at bv dmap0 i
                       then replicate (length row) rzero else row) Ae) !! i
              = (imap (fun i row =>
                         if bool_decide (i < S k) && bc_at bv dmap0 i
                         then replicate (length row) rzero else row) Ae) !! i).
    { intros Hk. destruct (decide (i = k)) as [->|Hik]; [|by apply Hother].
      rewrite !list_lookup_imap. destruct (Ae !! k); [|done]. simpl.
      by rewrite Hk, !andb_false_r. }
    unfold bc_at in Hsame. destruct (dmap0 !! k) as [ii|] eqn:Hk; [|by apply Hsame].
    destruct (is_bc bv ii) eqn:Hbc; [|by apply Hsame].
    unfold row_setZero. rewrite list_lookup_alter. case_decide as Hki; [subst i|by apply Hother].
    rewrite !list_lookup_imap. destruct (Ae !! k); [|done]. simpl.
    rewrite bool_decide_eq_false_2 by lia. rewrite bool_decide_eq_true_2 by lia.
    unfold bc_at. rewrite Hk, Hbc. reflexivity.
Qed.

Lemma zero_bc_rows_closed (bv : gmap nat R) dmap0 (Ae : list (list R)) :
  zero_bc_rows bv dmap0 Ae
  = imap (fun i row => if bc_at bv dmap0 i then replicate (length row) rzero else row) Ae.
Proof.
  unfold zero_bc_rows. rewrite zero_bc_rows_prefix. apply imap_ext.
  intros i row _. case_bool_decide as Hi; [done|].
  unfold bc_at. by rewrite (lookup_ge_None_2 dmap0 i) by lia.
Qed.

Lemma zero_bc_cols_prefix (bv : gmap nat R) dmap1 (Ae : list (list R)) k :
  foldl (fun M j =>
           match dmap1 !! j with
           | Some jj => if is_bc bv jj then col_setZero j M else M
           | None => M
           end) Ae (seq 0 k)
  = (fun row => imap (fun j x =>
                        if bool_decide (j < k) && bc_at bv dmap1 j then rzero else x) row)
      <$> Ae.
Proof.
  induction k as [|k IH].
  - simpl. apply list_eq. intros i. rewrite list_lookup_fmap.
    destruct (Ae !! i) as [row|]; [|done]. simpl. f_equal.
    apply list_eq. intros j. rewrite list_lookup_imap.
    by destruct (row !! j).
  - rewrite seq_S, foldl_app, IH. simpl.
    assert (Hrow : forall (row : list R) (z : bool),
              bc_at bv dmap1 k = z ->
              (if z then <[k := rzero]> (imap (fun j x =>
                        if bool_decide (j < k) && bc_at bv dmap1 j then rzero else x) row)
               else imap (fun j x =>
                        if bool_decide (j < k) && bc_at bv dmap1 j then rzero else x) row)
              = imap (fun j x =>
                        if bool_decide (j < S k) && bc_at bv dmap1 j then rzero else x) row).
    { intros row z Hz. apply list_eq. intros j. destruct z.
      - rewrite list_lookup_insert, length_imap, !list_lookup_imap.
        destruct (decide (k = j ∧ k < length row)) as [[<- Hlt]|Hn].
        + destruct (lookup_lt_is_Some_2 row k Hlt) as [x ->]. simpl.
          by rewrite bool_decide_eq_true_2, Hz by lia.
        + destruct (row !! j) eqn:Hrj; [|done]. simpl.
          destruct (decide (j = k)) as [->|Hjk].
          * exfalso. apply Hn. split; [done|]. by eapply lookup_lt_Some.
          * by rewrite (bool_decide_ext (j < k) (j < S k)) by lia.
      - rewrite !list_lookup_imap. destruct (row !! j); [|done]. simpl.
        destruct (decide (j = k)) as [->|Hjk].
        + by rewrite Hz, !andb_false_r.
        + by rewrite (bool_decide_ext (j < k) (j < S k)) by lia. }
    unfold bc_at in Hrow at 1. destruct (dmap1 !! k) as [jj|] eqn:Hk.
    + destruct (is_bc bv jj) eqn:Hbc.
      * unfold col_setZero. rewrite <- list_fmap_compose. apply list_fmap_ext.
        intros i row _. simpl. by apply (Hrow row true).
      * apply list_fmap_ext. intros i row _. by apply (Hrow row false).
    + apply list_fmap_ext. intros i row _. by apply (Hrow row false).
Qed.

Lemma zero_bc_cols_closed (bv : gmap nat R) dmap1 (Ae : list (list R)) :
  zero_bc_cols bv dmap1 Ae
  = (fun row => imap (fun j x => if bc_at bv dmap1 j then rzero else x) row) <$> Ae.
Proof.
  unfold zero_bc_cols. rewrite zero_bc_cols_prefix. apply list_fmap_ext.
  intros i row _. apply imap_ext. intros j x _. case_bool_decide as Hj; [done|].
  unfold bc_at. by rewrite (lookup_ge_None_2 dmap1 j) by lia.
Qed.

Lemma coeff_zero_bc_rows (bv : gmap nat R) dmap0 (Ae : list (list R)) i j :
  coeff (zero_bc_rows bv dmap0 Ae) i j
  = if bc_at bv dmap0 i then rzero else coeff Ae i j.
Proof.
  unfold coeff. rewrite zero_bc_rows_closed, list_lookup_imap.
  destruct (Ae !! i) as [row|]; simpl; [|by destruct (bc_at bv dmap0 i)].
  destruct (bc_at bv dmap0 i); [|done].
  destruct (replicate (length row) rzero !! j) as [x|] eqn:Hx; [|done].
  by apply lookup_replicate in Hx as [-> _].
Qed.

Lemma coeff_zero_bc_cols (bv : gmap nat R) dmap1 (Ae : list (list R)) i j :
  coeff (zero_bc_cols bv dmap1 Ae) i j
  = if bc_at bv dmap1 j then rzero else coeff Ae i j.
Proof.
  unfold coeff. rewrite zero_bc_cols_closed, list_lookup_fmap.
  destruct (Ae !! i) as [row|]; simpl; [|by destruct (bc_at bv dmap1 j)].
  rewrite list_lookup_imap. destruct (row !! j); simpl; by destruct (bc_at bv dmap1 j).
Qed.

(** The two zeroing passes commute. *)
Lemma zero_bc_rows_cols_comm (bv0 bv1 : gmap nat R) dmap0 dmap1 (Ae : list (list R)) :
  zero_bc_cols bv1 dmap1 (zero_bc_rows bv0 dmap0 Ae)
  = zero_bc_rows bv0 dmap0 (zero_bc_cols bv1 dmap1 Ae).
Proof.
  rewrite !zero_bc_rows_closed, !zero_bc_cols_closed. apply list_eq. intros i.
  rewrite list_lookup_fmap, !list_lookup_imap, list_lookup_fmap.
  destruct (Ae !! i) as [row|]; [|done]. simpl. f_equal.
  destruct (bc_at bv0 dmap0 i); [|done]. rewrite length_imap.
  apply list_eq. intros j. rewrite list_lookup_imap.
  destruct (decide (j < length row)) as [Hj|Hj].
  - rewrite !lookup_replicate_2 by done. simpl. by destruct (bc_at bv1 dmap1 j).
  - by rewrite (proj1 (lookup_replicate_None _ _ _)) by lia.
Qed.

End ElementBuffers.

(** ** Boundary elimination in the cell loop of matrix assembly *)

Section Elimination.
Context {R : Type} {SR : Scalar R} (heap : SpaceId -> FunctionSpace).

(** C8.  In the cell loop of matrix assembly the rows whose axis-0
    index is in the axis-0 boundary map are zeroed, then the columns
    whose axis-1 index is in the axis-1 boundary map; the entry [(i, j)]
    of the result is zero when row [i] or column [j] is constrained and
    is the tabulated entry otherwise; columns before rows gives the same
    matrix; and the matrix handed to [add_local] is the one left by both
    passes. *)
Theorem boundary_elimination_rows_then_cols (a : Form (R:=R)) (bv0 bv1 : gmap nat R)
  (c : nat) (Aid : MatId) (A : nat -> nat -> R) (Ae : list (list R)) :
  (forall i j,
     coeff (zero_bc_cols bv1 (cell_dofs (heap (function_space a 1)) c)
              (zero_bc_rows bv0 (cell_dofs (heap (function_space a 0)) c) Ae)) i j
     = if bc_at bv0 (cell_dofs (heap (function_space a 0)) c) i
          || bc_at bv1 (cell_dofs (heap (function_space a 1)) c) j
       then rzero else coeff Ae i j) ∧
  zero_bc_cols bv1 (cell_dofs (heap (function_space a 1)) c)
    (zero_bc_rows bv0 (cell_dofs (heap (function_space a 0)) c) Ae)
  = zero_bc_rows bv0 (cell_dofs (heap (function_space a 0)) c)
      (zero_bc_cols bv1 (cell_dofs (heap (function_space a 1)) c) Ae) ∧
  cell_matrix heap a bv0 bv1 c
  = zero_bc_cols bv1 (cell_dofs (heap (function_space a 1)) c)
      (zero_bc_rows bv0 (cell_dofs (heap (function_space a 0)) c)
         (tabulate_matrix heap a c
            (mat_setZero (length (cell_dofs (heap (function_space a 0)) c))
                         (length (cell_dofs (heap (function_space a 1)) c))))) ∧
  assemble_cell heap Aid a bv0 bv1 c A
  = (mat_add_local (cell_matrix heap a bv0 bv1 c)
       (cell_dofs (heap (function_space a 0)) c)
       (cell_dofs (heap (function_space a 1)) c) A,
     [EvTabulate c;
      EvMatAddLocal Aid (cell_matrix heap a bv0 bv1 c)
        (cell_dofs (heap (function_space a 0)) c)
        (cell_dofs (heap (function_space a 1)) c)]).
Proof.
  split; [|split; [|split]].
  - intros i j. rewrite coeff_zero_bc_cols, coeff_zero_bc_rows.
    destruct (bc_at bv0 _ i), (bc_at bv1 _ j); reflexivity.
  - apply zero_bc_rows_cols_comm.
  - reflexivity.
  - reflexivity.
Qed.

End Elimination.

(** ** The diagonal of boundary rows *)

Section DiagonalWrite.
Context {R : Type} {SR : Scalar R} (heap : SpaceId -> FunctionSpace).

Lemma mat_add_row_keeps_zero (Ae : list (list R)) (p : nat * nat) qs
  (A : nat -> nat -> R) d c :
  radd rzero rzero = rzero ->
  (p.2 = d -> forall j, coeff Ae p.1 j = rzero) ->
  A d c = rzero ->
  foldl (fun A2 (q : nat * nat) => mat_add_entry p.2 q.2 (coeff Ae p.1 q.1) A2) A qs d c
  = rzero.
Proof.
  intros H00 Hrow. revert A. induction qs as [|q qs IH]; intros A HA; [done|].
  simpl. apply IH. unfold mat_add_entry. case_bool_decide as Hc; [|done].
  destruct Hc as [Hd _]. rewrite HA, Hrow by done. exact H00.
Qed.

Lemma mat_add_pairs_keeps_zero (Ae : list (list R)) ps qs (A : nat -> nat -> R) d c :
  radd rzero rzero = rzero ->
  (forall p, p ∈ ps -> p.2 = d -> forall j, coeff Ae p.1 j = rzero) ->
  A d c = rzero ->
  mat_add_pairs Ae ps qs A d c = rzero.
Proof.
  intros H00. unfold mat_add_pairs. revert A.
  induction ps as [|p ps IH]; intros A Hps HA; [done|].
  simpl. apply IH.
  - intros p' Hp'. apply Hps. set_solver.
  - apply mat_add_row_keeps_zero; [done| |done]. apply Hps. set_solver.
Qed.

(** A cell adds nothing to a boundary row. *)
Lemma assemble_cell_keeps_zero Aid (a : Form (R:=R)) (bv0 bv1 : gmap nat R) cell
  (A : nat -> nat -> R) d c :
  radd rzero rzero = rzero ->
  is_Some (bv0 !! d) ->
  A d c = rzero ->
  (assemble_cell heap Aid a bv0 bv1 cell A).1 d c = rzero.
Proof.
  intros H00 Hd HA. unfold assemble_cell. cbn [fst]. unfold mat_add_local.
  apply mat_add_pairs_keeps_zero; [done| |done].
  intros [i ii] Hp Hii j. cbn [fst snd] in *. subst ii.
  apply elem_of_indexed in Hp. unfold cell_matrix.
  rewrite coeff_zero_bc_cols, coeff_zero_bc_rows.
  unfold bc_at at 2. rewrite Hp. unfold is_bc. rewrite bool_decide_eq_true_2 by done.
  by destruct (bc_at bv1 _ j).
Qed.

Lemma cell_loop_keeps_zero Aid (a : Form (R:=R)) (bv0 bv1 : gmap nat R) cells
  (A : nat -> nat -> R) d c :
  radd rzero rzero = rzero ->
  is_Some (bv0 !! d) ->
  A d c = rzero ->
  (for_all (assemble_cell heap Aid a bv0 bv1) cells A).1 d c = rzero.
Proof.
  intros H00 Hd. revert A. induction cells as [|cell cells IH]; intros A HA; [done|].
  cbn [for_all fst]. apply IH. by apply (assemble_cell_keeps_zero Aid).
Qed.

Lemma elem_of_boundary_rows (bv : gmap nat R) d :
  d ∈ (map_to_list bv).*1 <-> is_Some (bv !! d).
Proof.
  rewrite list_elem_of_fmap. split.
  - intros ([d' v] & -> & Hin). apply elem_of_map_to_list in Hin. by exists v.
  - intros [v Hv]. exists (d, v). split; [done|]. by apply elem_of_map_to_list.
Qed.

(** C5.  Single-form matrix assembly into a matrix whose boundary rows
    are zero on entry (it is empty, or was just initialised).  When the
    two spaces are the same object, the last two events are the
    finalisation and one diagonal write of [1.0] on exactly the dofs of
    the axis-0 boundary map; every such row ends with [1.0] on the
    diagonal and zero elsewhere; the other rows are the ones the cell
    loop left.  When the spaces differ, the last event is the
    finalisation, no diagonal write is made, and the matrix is the one
    the cell loop left. *)
Theorem unit_diagonal_on_boundary_rows (a : Form (R:=R)) (bcs : list DirichletBC)
  (Aid : MatId) (A : option (nat -> nat -> R)) :
  radd rzero rzero = rzero ->
  (forall d c,
     is_Some ((boundary_values_by_axis heap (function_space a 0) (function_space a 1)
                 (form_mesh a) bcs).1.1 !! d) ->
     default mat_init A d c = rzero) ->
  (function_space a 0 = function_space a 1 ->
   (forall d,
      is_Some ((boundary_values_by_axis heap (function_space a 0) (function_space a 1)
                  (form_mesh a) bcs).1.1 !! d) ->
      (assemble_form heap Aid A a bcs).1 d d = rone ∧
      forall c, c ≠ d -> (assemble_form heap Aid A a bcs).1 d c = rzero) ∧
   (forall d c,
      ¬ is_Some ((boundary_values_by_axis heap (function_space a 0) (function_space a 1)
                    (form_mesh a) bcs).1.1 !! d) ->
      (assemble_form heap Aid A a bcs).1 d c
      = (for_all (assemble_cell heap Aid a
                    (boundary_values_by_axis heap (function_space a 0) (function_space a 1)
                       (form_mesh a) bcs).1.1
                    (boundary_values_by_axis heap (function_space a 0) (function_space a 1)
                       (form_mesh a) bcs).1.2)
           (mesh_cells (form_mesh a)) (default mat_init A)).1 d c) ∧
   ∃ t rows,
     (assemble_form heap Aid A a bcs).2
     = t ++ [EvMatApply Aid; EvMatZeroLocal Aid rows rone] ∧
     (forall d, d ∈ rows <->
                is_Some ((boundary_values_by_axis heap (function_space a 0)
                            (function_space a 1) (form_mesh a) bcs).1.1 !! d)) ∧
     Forall (fun e => is_mat_apply e = false ∧ is_zero_local e = false) t) ∧
  (function_space a 0 ≠ function_space a 1 ->
   (assemble_form heap Aid A a bcs).1
   = (for_all (assemble_cell heap Aid a
                 (boundary_values_by_axis heap (function_space a 0) (function_space a 1)
                    (form_mesh a) bcs).1.1
                 (boundary_values_by_axis heap (function_space a 0) (function_space a 1)
                    (form_mesh a) bcs).1.2)
        (mesh_cells (form_mesh a)) (default mat_init A)).1 ∧
   ∃ t, (assemble_form heap Aid A a bcs).2 = t ++ [EvMatApply Aid] ∧
        Forall (fun e => is_mat_apply e = false ∧ is_zero_local e = false) t).
Proof.
  intros H00 Hfresh.
  set (bvs := boundary_values_by_axis heap (function_space a 0) (function_space a 1)
                (form_mesh a) bcs) in *.
  assert (Hi0 : (match A with
                 | None => (mat_init (R:=R), [EvMatInit (R:=R) Aid])
                 | Some m => (m, [])
                 end).1 = default mat_init A) by (by destruct A).
  assert (Hpre : Forall (fun e : Event (R:=R) => is_mat_apply e = false ∧ is_zero_local e = false)
                   ((match A with
                     | None => (mat_init (R:=R), [EvMatInit (R:=R) Aid])
                     | Some m => (m, [])
                     end).2 ++ bvs.2
                    ++ (for_all (assemble_cell heap Aid a bvs.1.1 bvs.1.2)
                          (mesh_cells (form_mesh a)) (default mat_init A)).2)).
  { rewrite !Forall_app. split; [|split].
    - destruct A; repeat constructor.
    - eapply Forall_impl; [apply boundary_values_by_axis_events|]. by intros [].
    - eapply Forall_impl; [apply (mat_cells_events heap Aid a)|]. by intros []. }
  split.
  - intros HV. unfold assemble_form. fold bvs. rewrite Hi0.
    rewrite bool_decide_eq_true_2 by done. cbn [fst snd]. split; [|split].
    + intros d Hd. unfold mat_zero_local. split.
      * rewrite bool_decide_eq_true_2; [done|]. split; [done|].
        by apply elem_of_boundary_rows.
      * intros c Hc. rewrite bool_decide_eq_false_2 by (intros [? _]; congruence).
        apply cell_loop_keeps_zero; [done|done|]. by apply Hfresh.
    + intros d c Hd. unfold mat_zero_local.
      rewrite bool_decide_eq_false_2; [done|]. intros [_ Hin].
      by apply elem_of_boundary_rows in Hin.
    + eexists _, _. split; [|split; [|exact Hpre]].
      * rewrite <- !app_assoc. reflexivity.
      * intros d. apply elem_of_boundary_rows.
  - intros HV. unfold assemble_form. fold bvs. rewrite Hi0.
    rewrite bool_decide_eq_false_2 by done. cbn [fst snd]. split; [done|].
    eexists. split; [|exact Hpre]. rewrite <- !app_assoc. reflexivity.
Qed.

End DiagonalWrite.

(** ** The lifting correction *)

Section LiftingCells.
Context {R : Type} {SR : Scalar R} (heap : SpaceId -> FunctionSpace).

Lemma length_zero_bc_rows (bv : gmap nat R) dmap0 (Ae : list (list R)) :
  length (zero_bc_rows bv dmap0 Ae) = length Ae.
Proof. by rewrite zero_bc_rows_closed, length_imap. Qed.

Lemma length_tabulate_matrix (a : Form (R:=R)) c (Ae : list (list R)) :
  length (tabulate_matrix heap a c Ae) = length Ae.
Proof. unfold tabulate_matrix. by rewrite length_imap. Qed.

Lemma no_bc_on_cell (bv : gmap nat R) (dmap1 : list nat) :
  existsb (is_bc bv) dmap1 = false <-> Forall (fun d => bv !! d = None) dmap1.
Proof.
  induction dmap1 as [|d dmap1 IH]; simpl.
  - split; [constructor | done].
  - rewrite orb_false_iff, IH. unfold is_bc. rewrite bool_decide_eq_false.
    rewrite <- eq_None_not_Some. split.
    + intros [? ?]. by constructor.
    + by inversion 1.
Qed.

(** The correction vector, entry by entry. *)
Lemma lifting_vector_lookup (bv : gmap nat R) dmap1 (Ae : list (list R)) n i :
  length Ae = n -> i < n ->
  lifting_vector bv dmap1 Ae (vec_setZero n) !! i = Some (lifting_entry bv dmap1 Ae i).
Proof.
  intros Hlen Hi. unfold lifting_vector, lifting_entry.
  generalize (length dmap1). intros k. induction k as [|k IH].
  - simpl. unfold vec_setZero. by apply lookup_replicate_2.
  - rewrite seq_S, !foldl_app. simpl.
    destruct (dmap1 !! k) as [jj|]; simpl; [|exact IH].
    destruct (bv !! jj) as [v|]; simpl; [|exact IH].
    rewrite lookup_zip_with, IH. simpl. unfold col. rewrite !list_lookup_fmap.
    unfold coeff. destruct (lookup_lt_is_Some_2 Ae i ltac:(lia)) as [row ->].
    reflexivity.
Qed.


End LiftingCells.

Section LiftingAlgebra.
Context {R : Type} {SR : Scalar R} (heap : SpaceId -> FunctionSpace).
Variable ropp : R -> R.
Hypothesis Rth : ring_theory rzero rone radd rmul rsub ropp (@eq R).

Add Ring scalar_ring : Rth.

Lemma foldl_ext_all {A X} (f g : A -> X -> A) xs :
  (forall acc x, f acc x = g acc x) -> forall z, foldl f z xs = foldl g z xs.
Proof.
  intros Hfg. induction xs as [|x xs IH]; intros z; simpl; [done|].
  by rewrite Hfg, IH.
Qed.

Lemma foldl_ext_in {A X} (f g : A -> X -> A) xs :
  (forall acc x, x ∈ xs -> f acc x = g acc x) -> forall z, foldl f z xs = foldl g z xs.
Proof.
  induction xs as [|x xs IH]; intros Hfg z; simpl; [done|].
  rewrite Hfg by set_solver. apply IH. intros acc y Hy. apply Hfg. set_solver.
Qed.

(** A counting loop that reads [l[j]] is a loop over the indexed list. *)
Lemma foldl_seq_indexed {A X} (F : A -> nat -> X -> A) (l : list X) z :
  foldl (fun acc j => match l !! j with Some x => F acc j x | None => acc end)
        z (seq 0 (length l))
  = foldl (fun acc p => F acc p.1 p.2) z (indexed l).
Proof.
  revert z. induction l as [|x l IH] using rev_ind; intros z; [done|].
  unfold indexed, indexed_from in *. rewrite length_app. simpl.
  rewrite Nat.add_1_r, seq_S. simpl.
  rewrite zip_with_app by (by rewrite length_seq).
  rewrite !foldl_app. simpl.
  rewrite lookup_app_r, Nat.sub_diag by lia. simpl. f_equal.
  rewrite <- (IH z). apply foldl_ext_in. intros acc j Hj.
  apply elem_of_seq in Hj. by rewrite lookup_app_l by lia.
Qed.

Lemma sum_over_ext {X} (P : X -> bool) (f g : X -> R) xs :
  (forall x, x ∈ xs -> P x = true -> f x = g x) ->
  sum_over P f xs = sum_over P g xs.
Proof.
  induction xs as [|x xs IH]; intros Hfg; simpl; [done|].
  rewrite IH by (intros y Hy; apply Hfg; set_solver).
  destruct (P x) eqn:HP; [|done]. rewrite Hfg by (done || set_solver). done.
Qed.

Lemma sum_over_none {X} (P : X -> bool) (f : X -> R) xs :
  (forall x, x ∈ xs -> P x = false) -> sum_over P f xs = rzero.
Proof.
  induction xs as [|x xs IH]; intros HP; simpl; [done|].
  rewrite HP by set_solver. apply IH. intros y Hy. apply HP. set_solver.
Qed.

Lemma sum_over_zero {X} (P : X -> bool) (xs : list X) :
  sum_over P (fun _ => rzero) xs = rzero.
Proof.
  induction xs as [|x xs IH]; simpl; [done|]. rewrite IH. destruct (P x); [ring|done].
Qed.

Lemma sum_over_scale {X} (P : X -> bool) (f : X -> R) (v : R) xs :
  sum_over P (fun x => rsub rzero (rmul (f x) v)) xs
  = rsub rzero (rmul (sum_over P f xs) v).
Proof.
  induction xs as [|x xs IH]; simpl; [ring|]. rewrite IH. destruct (P x); ring.
Qed.

(** What [add_local] adds at a global entry. *)
Lemma mat_add_row_sum (Ae : list (list R)) (i r' : nat) (qs : list (nat * nat))
  (A : nat -> nat -> R) r c :
  foldl (fun A2 (q : nat * nat) => mat_add_entry r' q.2 (coeff Ae i q.1) A2) A qs r c
  = if bool_decide (r = r')
    then radd (A r c)
              (sum_over (fun q : nat * nat => bool_decide (q.2 = c))
                        (fun q => coeff Ae i q.1) qs)
    else A r c.
Proof.
  revert A. induction qs as [|q qs IH]; intros A; simpl.
  - case_bool_decide; [ring|done].
  - rewrite IH. unfold mat_add_entry.
    case_bool_decide as Hr; [|by rewrite bool_decide_eq_false_2 by (intros [? _]; done)].
    destruct (decide (q.2 = c)) as [Hq|Hq].
    + rewrite !bool_decide_eq_true_2 by done. ring.
    + rewrite bool_decide_eq_false_2 by (intros [_ ?]; congruence).
      rewrite (bool_decide_eq_false_2 (q.2 = c)) by done. done.
Qed.

Lemma mat_add_pairs_sum (Ae : list (list R)) (ps qs : list (nat * nat))
  (A : nat -> nat -> R) r c :
  mat_add_pairs Ae ps qs A r c
  = radd (A r c)
         (sum_over (fun p : nat * nat => bool_decide (p.2 = r))
            (fun p => sum_over (fun q : nat * nat => bool_decide (q.2 = c))
                               (fun q => coeff Ae p.1 q.1) qs) ps).
Proof.
  unfold mat_add_pairs. revert A. induction ps as [|p ps IH]; intros A; simpl; [ring|].
  rewrite IH, mat_add_row_sum.
  destruct (decide (p.2 = r)) as [Hp|Hp].
  - rewrite !bool_decide_eq_true_2 by done. ring.
  - rewrite !bool_decide_eq_false_2 by congruence. done.
Qed.

Lemma vec_add_pairs_sum (be : list R) (ps : list (nat * nat)) (b : nat -> R) r :
  vec_add_pairs be ps b r
  = radd (b r) (sum_over (fun p : nat * nat => bool_decide (p.2 = r))
                         (fun p => vcoeff be p.1) ps).
Proof.
  unfold vec_add_pairs. revert b. induction ps as [|p ps IH]; intros b; simpl; [ring|].
  rewrite IH. unfold vec_add_entry.
  destruct (decide (p.2 = r)) as [Hp|Hp].
  - rewrite !bool_decide_eq_true_2 by done. ring.
  - rewrite !bool_decide_eq_false_2 by congruence. done.
Qed.

(** With one constrained dof the entry of the correction vector is
    minus the constrained columns of the row, times the value. *)
Lemma lifting_entry_singleton (dmap1 : list nat) (Ae : list (list R)) i cdof v :
  lifting_entry {[cdof := v]} dmap1 Ae i
  = rsub rzero
      (rmul (sum_over (fun q : nat * nat => bool_decide (q.2 = cdof))
                      (fun q => coeff Ae i q.1) (indexed dmap1)) v).
Proof.
  unfold lifting_entry.
  rewrite (foldl_ext_all _
             (fun acc j => match dmap1 !! j with
                           | Some jj => if bool_decide (jj = cdof)
                                        then rsub acc (rmul (coeff Ae i j) v)
                                        else acc
                           | None => acc
                           end)).
  2:{ intros acc j. destruct (dmap1 !! j) as [jj|]; simpl; [|done].
      destruct (decide (jj = cdof)) as [->|Hne].
      - by rewrite lookup_singleton_eq, bool_decide_eq_true_2.
      - by rewrite lookup_singleton_ne, bool_decide_eq_false_2. }
  rewrite (foldl_seq_indexed
             (fun acc j jj => if bool_decide (jj = cdof)
                              then rsub acc (rmul (coeff Ae i j) v) else acc)).
  generalize (indexed dmap1). intros ps. generalize (@rzero R SR) at 1 2.
  induction ps as [|p ps IH]; intros z; simpl; [ring|].
  rewrite IH. destruct (bool_decide (p.2 = cdof)); ring.
Qed.

Lemma bc_at_empty (dmap : list nat) i : bc_at (∅ : gmap nat R) dmap i = false.
Proof.
  unfold bc_at, is_bc. destruct (dmap !! i); [|done].
  rewrite lookup_empty. apply bool_decide_eq_false_2. by intros [? ?].
Qed.

Lemma coeff_cell_matrix_raw (a : Form (R:=R)) c i j :
  coeff (cell_matrix heap a ∅ ∅ c) i j
  = coeff (tabulate_matrix heap a c
             (mat_setZero (length (cell_dofs (heap (function_space a 0)) c))
                          (length (cell_dofs (heap (function_space a 1)) c)))) i j.
Proof.
  unfold cell_matrix. by rewrite coeff_zero_bc_cols, coeff_zero_bc_rows, !bc_at_empty.
Qed.

(** One cell, one constrained dof [cdof] with value [v], an
    unconstrained row [r]: what the lifting adds to [b(r)] is minus [v]
    times what the assembly without boundary conditions adds to
    [A(r, cdof)]. *)
Lemma lifting_cell_one_dof (a : Form (R:=R)) cell Aid (A : nat -> nat -> R)
  (b : nat -> R) cdof v r :
  function_space a 0 = function_space a 1 ->
  r ≠ cdof ->
  (apply_bc_cell heap a {[cdof := v]} cell b).1 r
  = rsub (b r)
         (rmul (rsub ((assemble_cell heap Aid a ∅ ∅ cell A).1 r cdof) (A r cdof)) v).
Proof.
  intros HV Hr. unfold assemble_cell, apply_bc_cell. cbn [fst].
  unfold mat_add_local. rewrite mat_add_pairs_sum.
  rewrite (sum_over_ext _ _
             (fun p : nat * nat =>
                sum_over (fun q : nat * nat => bool_decide (q.2 = cdof))
                  (fun q => coeff (tabulate_matrix heap a cell
                                     (mat_setZero
                                        (length (cell_dofs (heap (function_space a 0)) cell))
                                        (length (cell_dofs (heap (function_space a 1)) cell))))
                                  p.1 q.1)
                  (indexed (cell_dofs (heap (function_space a 1)) cell)))).
  2:{ intros p _ _. apply sum_over_ext. intros q _ _. apply coeff_cell_matrix_raw. }
  rewrite HV.
  set (dmap := cell_dofs (heap (function_space a 1)) cell).
  set (K := tabulate_matrix heap a cell (mat_setZero (length dmap) (length dmap))).
  destruct (existsb (is_bc {[cdof := v]}) dmap) eqn:Hbc; cbn [negb].
  - unfold lift_cell. cbn [fst]. rewrite bool_decide_eq_true_2 by done.
    fold K. unfold vec_add_local. rewrite vec_add_pairs_sum.
    rewrite (sum_over_ext _ _
               (fun p : nat * nat =>
                  rsub rzero
                    (rmul (sum_over (fun q : nat * nat => bool_decide (q.2 = cdof))
                             (fun q => coeff K p.1 q.1) (indexed dmap)) v))).
    + rewrite sum_over_scale. ring.
    + intros [i ii] Hp HP. cbn [fst snd] in *. apply bool_decide_eq_true_1 in HP. subst ii.
      apply elem_of_indexed in Hp.
      assert (Hi : i < length dmap) by (by eapply lookup_lt_Some).
      assert (HlenK : length (zero_bc_rows {[cdof := v]} dmap K) = length dmap).
      { rewrite length_zero_bc_rows. unfold K.
        rewrite length_tabulate_matrix. apply length_replicate. }
      unfold vcoeff. rewrite (lifting_vector_lookup _ _ _ _ i HlenK Hi). simpl.
      rewrite lifting_entry_singleton. f_equal. f_equal.
      apply sum_over_ext. intros q _ _. rewrite coeff_zero_bc_rows.
      unfold bc_at. rewrite Hp. unfold is_bc.
      rewrite bool_decide_eq_false_2; [done|].
      rewrite lookup_singleton_ne by done. by intros [? ?].
  - cbn [fst]. apply no_bc_on_cell in Hbc.
    rewrite (sum_over_ext _ _ (fun _ => rzero)).
    + rewrite sum_over_zero. ring.
    + intros p _ _. apply sum_over_none. intros [j jj] Hq. cbn [snd].
      apply bool_decide_eq_false_2. intros ->.
      apply elem_of_indexed in Hq.
      pose proof (proj1 (Forall_lookup _ _) Hbc j cdof Hq) as Hnone. cbn in Hnone.
      by rewrite lookup_singleton_eq in Hnone.
Qed.

Lemma lifting_loop_one_dof (a : Form (R:=R)) cells Aid (A : nat -> nat -> R)
  (b : nat -> R) cdof v r :
  function_space a 0 = function_space a 1 ->
  r ≠ cdof ->
  (for_all (apply_bc_cell heap a {[cdof := v]}) cells b).1 r
  = rsub (b r)
         (rmul (rsub ((for_all (assemble_cell heap Aid a ∅ ∅) cells A).1 r cdof)
                     (A r cdof)) v).
Proof.
  intros HV Hr. revert A b. induction cells as [|cell cells IH]; intros A b.
  - simpl. ring.
  - cbn [for_all fst].
    rewrite (IH (assemble_cell heap Aid a ∅ ∅ cell A).1
                (apply_bc_cell heap a {[cdof := v]} cell b).1).
    rewrite (lifting_cell_one_dof a cell Aid A b cdof v r HV Hr). ring.
Qed.


End LiftingAlgebra.

(** C5, witness: the single-field system, where dof [0] is
    constrained, and the rectangular form, whose two spaces differ. *)
Lemma unit_diagonal_on_boundary_rows_witness :
  ((assemble_form Demo.heap WholeMat None Demo.a_square [Demo.bc_left]).1 0 0 = 1%Z ∧
   forall c, c ≠ 0 ->
     (assemble_form Demo.heap WholeMat None Demo.a_square [Demo.bc_left]).1 0 c = 0%Z) ∧
  ∃ t, (assemble_form Demo.heap WholeMat None Demo.a_rect [Demo.bc_left]).2
       = t ++ [EvMatApply WholeMat] ∧
       Forall (fun e => is_mat_apply e = false ∧ is_zero_local e = false) t.
Proof.
  split.
  - refine (proj1 (proj1 (unit_diagonal_on_boundary_rows Demo.heap Demo.a_square
                            [Demo.bc_left] WholeMat None _ _) _) 0 _).
    + reflexivity.
    + intros d c _. reflexivity.
    + reflexivity.
    + exists 5%Z. reflexivity.
  - refine (proj2 (proj2 (unit_diagonal_on_boundary_rows Demo.heap Demo.a_rect
                            [Demo.bc_left] WholeMat None _ _) _)).
    + reflexivity.
    + intros d c _. reflexivity.
    + discriminate.
Defined.


(** ** The index map of the lifting scatter *)

Section LiftingScatter.
Context {R : Type} {SR : Scalar R} (heap : SpaceId -> FunctionSpace).

(** When the two spaces of the form are the same object, the lifting
    correction of the source and the one that scatters with the axis-0
    map are the same function. *)
Lemma apply_bc_axis0_same_space (b : nat -> R) (a : Form (R:=R)) bcs :
  function_space a 0 = function_space a 1 ->
  apply_bc heap b a bcs = apply_bc_axis0 heap b a bcs.
Proof.
  intros HV. unfold apply_bc, apply_bc_axis0, apply_bc_cell, apply_bc_cell_axis0.
  by rewrite HV.
Qed.

End LiftingScatter.

(** C1.  A form with the continuous space on axis 0 and the
    discontinuous space on axis 1, dof [2] of the latter fixed to [5].
    On cell [1] the axis-0 map is [[1; 2]] and the axis-1 map is
    [[2; 3]].  The correction vector of the cell is scattered with
    [[2; 3]], so it lands in rows [2] and [3]; scattered with the
    axis-0 map it lands in rows [1] and [2]. *)
Theorem apply_bc_scatters_with_axis1_map :
  cell_dofs (Demo.heap (function_space Demo.a_rect 0)) 1 = [1; 2] ∧
  cell_dofs (Demo.heap (function_space Demo.a_rect 1)) 1 = [2; 3] ∧
  (apply_bc Demo.heap Demo.bvec Demo.a_rect [Demo.bc_dg]).2
  = [EvGetBoundaryValues 0 1; EvTabulate 1;
     EvVecAddLocal [-5; -15]%Z [2; 3]; EvVecApply] ∧
  (apply_bc_axis0 Demo.heap Demo.bvec Demo.a_rect [Demo.bc_dg]).2
  = [EvGetBoundaryValues 0 1; EvTabulate 1;
     EvVecAddLocal [-5; -15]%Z [1; 2]; EvVecApply] ∧
  map (apply_bc Demo.heap Demo.bvec Demo.a_rect [Demo.bc_dg]).1 [0; 1; 2; 3]
  = [0; 0; -5; -15]%Z ∧
  map (apply_bc_axis0 Demo.heap Demo.bvec Demo.a_rect [Demo.bc_dg]).1 [0; 1; 2; 3]
  = [0; -5; -15; 0]%Z.
Proof. repeat split; by vm_compute. Qed.

(** * Further properties of the assembler *)

(** ** What [set_bc] leaves in the vector *)

Section BoundaryValues.
Context {R : Type} {SR : Scalar R} (heap : SpaceId -> FunctionSpace).

Lemma vec_set_pairs_other (l : list (nat * R)) (b : nat -> R) d :
  d ∉ l.*1 ->
  foldl (fun b1 (p : nat * R) => vec_set_entry p.1 p.2 b1) b l d = b d.
Proof.
  revert b. induction l as [|[k x] l IH]; intros b Hd; [done|].
  simpl in *. apply not_elem_of_cons in Hd as [Hne Hd].
  rewrite IH by done. unfold vec_set_entry. by rewrite bool_decide_eq_false_2.
Qed.

Lemma vec_set_pairs_at (l : list (nat * R)) (b : nat -> R) d v :
  NoDup l.*1 -> (d, v) ∈ l ->
  foldl (fun b1 (p : nat * R) => vec_set_entry p.1 p.2 b1) b l d = v.
Proof.
  revert b. induction l as [|[k x] l IH]; intros b Hnd Hin.
  - by apply elem_of_nil in Hin.
  - simpl in *. apply NoDup_cons in Hnd as [Hk Hnd].
    apply elem_of_cons in Hin as [[= <- <-]|Hin].
    + rewrite vec_set_pairs_other by done. unfold vec_set_entry.
      by rewrite bool_decide_eq_true_2.
    + by apply IH.
Qed.

Lemma vec_set_local_map (bv : gmap nat R) (b : nat -> R) d :
  vec_set_local (map_to_list bv).*2 (map_to_list bv).*1 b d = default (b d) (bv !! d).
Proof.
  unfold vec_set_local. rewrite zip_fst_snd.
  destruct (bv !! d) as [v|] eqn:E; simpl.
  - apply vec_set_pairs_at; [apply NoDup_fst_map_to_list|].
    by apply elem_of_map_to_list.
  - apply vec_set_pairs_other. rewrite elem_of_boundary_rows, E. by intros [? ?].
Qed.

(** X1.  After [set_bc], the entry of the vector at every dof of the
    boundary map of the test space of [L] is the prescribed value of that
    dof, whatever the entry was; every other entry is as it was. *)
Theorem set_bc_overwrites (b : nat -> R) (L : Form (R:=R)) (bcs : list DirichletBC) d :
  (set_bc heap b L bcs).1 d
  = default (b d)
      ((boundary_values_of heap (function_space L 0) (form_mesh L) 0 bcs).1 !! d).
Proof. unfold set_bc. cbn [fst]. apply vec_set_local_map. Qed.


End BoundaryValues.


(** ** The assembled matrix, entry by entry *)

Section MatrixEntries.
Context {R : Type} {SR : Scalar R} (heap : SpaceId -> FunctionSpace).

Lemma mat_add_row_congr (Ae Ae' : list (list R)) (p : nat * nat) qs
  (A A' : nat -> nat -> R) r c :
  A r c = A' r c ->
  (forall q, q ∈ qs -> p.2 = r -> q.2 = c -> coeff Ae p.1 q.1 = coeff Ae' p.1 q.1) ->
  foldl (fun A2 (q : nat * nat) => mat_add_entry p.2 q.2 (coeff Ae p.1 q.1) A2) A qs r c
  = foldl (fun A2 (q : nat * nat) => mat_add_entry p.2 q.2 (coeff Ae' p.1 q.1) A2) A' qs r c.
Proof.
  revert A A'. induction qs as [|q qs IH]; intros A A' HA Hqs; [done|].
  simpl. apply IH.
  - unfold mat_add_entry. case_bool_decide as Hc; [|done].
    destruct Hc as [-> ->]. rewrite HA, Hqs; [done|set_solver|done|done].
  - intros q' Hq'. apply Hqs. set_solver.
Qed.

(** The entry [(r, c)] after a scatter-add depends only on the entry
    before and on the coefficients scattered to [(r, c)]. *)
Lemma mat_add_pairs_congr (Ae Ae' : list (list R)) ps qs (A A' : nat -> nat -> R) r c :
  A r c = A' r c ->
  (forall p q, p ∈ ps -> q ∈ qs -> p.2 = r -> q.2 = c ->
               coeff Ae p.1 q.1 = coeff Ae' p.1 q.1) ->
  mat_add_pairs Ae ps qs A r c = mat_add_pairs Ae' ps qs A' r c.
Proof.
  unfold mat_add_pairs. revert A A'.
  induction ps as [|p ps IH]; intros A A' HA Hps; [done|].
  simpl. apply IH.
  - apply mat_add_row_congr; [done|]. intros q Hq. apply Hps; set_solver.
  - intros p' q Hp'. apply Hps. set_solver.
Qed.

Lemma mat_add_row_zero_at (Ae : list (list R)) (p : nat * nat) qs
  (A : nat -> nat -> R) r c :
  radd rzero rzero = rzero ->
  (forall q, q ∈ qs -> p.2 = r -> q.2 = c -> coeff Ae p.1 q.1 = rzero) ->
  A r c = rzero ->
  foldl (fun A2 (q : nat * nat) => mat_add_entry p.2 q.2 (coeff Ae p.1 q.1) A2) A qs r c
  = rzero.
Proof.
  intros H00. revert A. induction qs as [|q qs IH]; intros A Hqs HA; [done|].
  simpl. apply IH.
  - intros q' Hq'. apply Hqs. set_solver.
  - unfold mat_add_entry. case_bool_decide as Hc; [|done].
    destruct Hc as [-> ->]. rewrite HA, Hqs; [done|set_solver|done|done].
Qed.

Lemma mat_add_pairs_zero_at (Ae : list (list R)) ps qs (A : nat -> nat -> R) r c :
  radd rzero rzero = rzero ->
  (forall p q, p ∈ ps -> q ∈ qs -> p.2 = r -> q.2 = c -> coeff Ae p.1 q.1 = rzero) ->
  A r c = rzero ->
  mat_add_pairs Ae ps qs A r c = rzero.
Proof.
  intros H00. unfold mat_add_pairs. revert A.
  induction ps as [|p ps IH]; intros A Hps HA; [done|].
  simpl. apply IH.
  - intros p' q Hp'. apply Hps. set_solver.
  - apply mat_add_row_zero_at; [done| |done]. intros q Hq. apply Hps; set_solver.
Qed.

(** The coefficient of the element matrix that lands at [(r, c)]. *)
Lemma coeff_cell_matrix_at (a : Form (R:=R)) (bv0 bv1 : gmap nat R) cell i j r c :
  cell_dofs (heap (function_space a 0)) cell !! i = Some r ->
  cell_dofs (heap (function_space a 1)) cell !! j = Some c ->
  coeff (cell_matrix heap a bv0 bv1 cell) i j
  = if is_bc bv0 r || is_bc bv1 c then rzero
    else coeff (cell_matrix heap a ∅ ∅ cell) i j.
Proof.
  intros Hi Hj. rewrite coeff_cell_matrix_raw. unfold cell_matrix.
  rewrite coeff_zero_bc_cols, coeff_zero_bc_rows.
  unfold bc_at. rewrite Hi, Hj.
  by destruct (is_bc bv0 r), (is_bc bv1 c).
Qed.

Lemma cell_loop_zero_at Aid (a : Form (R:=R)) (bv0 bv1 : gmap nat R) cells
  (A : nat -> nat -> R) r c :
  radd rzero rzero = rzero ->
  is_Some (bv0 !! r) \/ is_Some (bv1 !! c) ->
  A r c = rzero ->
  (for_all (assemble_cell heap Aid a bv0 bv1) cells A).1 r c = rzero.
Proof.
  intros H00 Hbc. revert A. induction cells as [|cell cells IH]; intros A HA; [done|].
  cbn [for_all fst]. apply IH. unfold assemble_cell. cbn [fst]. unfold mat_add_local.
  apply mat_add_pairs_zero_at; [done| |done].
  intros [i ii] [j jj] Hp Hq. cbn [fst snd]. intros -> ->.
  apply elem_of_indexed in Hp. apply elem_of_indexed in Hq.
  rewrite (coeff_cell_matrix_at a bv0 bv1 cell i j r c Hp Hq).
  unfold is_bc. destruct Hbc as [Hr|Hc].
  - by rewrite (bool_decide_eq_true_2 _ Hr).
  - rewrite (bool_decide_eq_true_2 _ Hc). by rewrite orb_true_r.
Qed.

Lemma cell_loop_free_at Aid (a : Form (R:=R)) (bv0 bv1 : gmap nat R) cells
  (A A' : nat -> nat -> R) r c :
  bv0 !! r = None -> bv1 !! c = None ->
  A r c = A' r c ->
  (for_all (assemble_cell heap Aid a bv0 bv1) cells A).1 r c
  = (for_all (assemble_cell heap Aid a ∅ ∅) cells A').1 r c.
Proof.
  intros Hr Hc. revert A A'. induction cells as [|cell cells IH]; intros A A' HA; [done|].
  cbn [for_all fst]. apply IH. unfold assemble_cell. cbn [fst]. unfold mat_add_local.
  apply mat_add_pairs_congr; [done|].
  intros [i ii] [j jj] Hp Hq. cbn [fst snd]. intros -> ->.
  apply elem_of_indexed in Hp. apply elem_of_indexed in Hq.
  rewrite (coeff_cell_matrix_at a bv0 bv1 cell i j r c Hp Hq).
  unfold is_bc. rewrite Hr, Hc.
  rewrite !bool_decide_eq_false_2 by (by intros [? ?]). done.
Qed.

(** X3.  Single-form matrix assembly into a matrix whose entry [(r, c)]
    is zero on entry (it is empty, or was just initialised): when row [r]
    is in the boundary map of axis 0 or column [c] is in the boundary map
    of axis 1, the entry [(r, c)] of the result is zero -- except on the
    diagonal when the two spaces are the same object.  In particular,
    when the spaces differ a constrained row is zero throughout, its
    diagonal included. *)
Theorem elimination_zero_pattern (Aid : MatId) (A : option (nat -> nat -> R))
  (a : Form (R:=R)) (bcs : list DirichletBC) (r c : nat) :
  radd rzero rzero = rzero ->
  default mat_init A r c = rzero ->
  is_Some ((boundary_values_by_axis heap (function_space a 0) (function_space a 1)
              (form_mesh a) bcs).1.1 !! r)
  \/ is_Some ((boundary_values_by_axis heap (function_space a 0) (function_space a 1)
                 (form_mesh a) bcs).1.2 !! c) ->
  r ≠ c \/ function_space a 0 ≠ function_space a 1 ->
  (assemble_form heap Aid A a bcs).1 r c = rzero.
Proof.
  intros H00 HA Hbc Hoff. unfold assemble_form.
  set (bvs := boundary_values_by_axis heap _ _ _ bcs) in *.
  assert (Hloop : forall m, m r c = rzero ->
            (for_all (assemble_cell heap Aid a bvs.1.1 bvs.1.2)
                     (mesh_cells (form_mesh a)) m).1 r c = rzero).
  { intros m Hm. by apply cell_loop_zero_at. }
  destruct A as [m|]; cbn [default fst snd] in *;
    (case_bool_decide as HV; cbn [fst]; [|by apply Hloop]);
    (unfold mat_zero_local; rewrite bool_decide_eq_false_2; [by apply Hloop|]);
    intros [-> _]; by destruct Hoff.
Qed.

(** X4.  An entry [(r, c)] whose row is not in the boundary map of
    axis 0 and whose column is not in the boundary map of axis 1 is the
    entry the same assembly gives without any boundary condition. *)
Theorem unconstrained_entries_unchanged (Aid : MatId) (A : option (nat -> nat -> R))
  (a : Form (R:=R)) (bcs : list DirichletBC) (r c : nat) :
  (boundary_values_by_axis heap (function_space a 0) (function_space a 1)
     (form_mesh a) bcs).1.1 !! r = None ->
  (boundary_values_by_axis heap (function_space a 0) (function_space a 1)
     (form_mesh a) bcs).1.2 !! c = None ->
  (assemble_form heap Aid A a bcs).1 r c = (assemble_form heap Aid A a []).1 r c.
Proof.
  intros Hr Hc. unfold assemble_form.
  set (bvs := boundary_values_by_axis heap _ _ _ bcs) in *.
  change (boundary_values_by_axis heap (function_space a 0) (function_space a 1)
            (form_mesh a) []) with ((∅ : gmap nat R, ∅ : gmap nat R), @nil (Event (R:=R))).
  cbn [fst snd].
  assert (Hcl : forall m,
            (for_all (assemble_cell heap Aid a bvs.1.1 bvs.1.2)
                     (mesh_cells (form_mesh a)) m).1 r c
            = (for_all (assemble_cell heap Aid a ∅ ∅) (mesh_cells (form_mesh a)) m).1 r c).
  { intros m. by apply cell_loop_free_at. }
  case_bool_decide as HV; cbn [fst]; [|apply Hcl].
  unfold mat_zero_local. rewrite map_to_list_empty.
  rewrite !bool_decide_eq_false_2; [apply Hcl| |].
  - intros [_ Hin]. by apply elem_of_nil in Hin.
  - intros [_ Hin]. apply elem_of_boundary_rows in Hin. rewrite Hr in Hin.
    by destruct Hin.
Qed.

End MatrixEntries.

(** The rectangular form with a condition on its test space: row [0]
    is constrained and zero throughout, the diagonal included. *)
Lemma elimination_zero_pattern_witness :
  (assemble_form Demo.heap WholeMat None Demo.a_rect [Demo.bc_left]).1 0 0 = 0%Z.
Proof.
  refine (elimination_zero_pattern Demo.heap WholeMat None Demo.a_rect [Demo.bc_left]
            0 0 _ _ _ _).
  - reflexivity.
  - reflexivity.
  - left. by exists 5%Z.
  - right. simpl. lia.
Defined.

(** The square form with dof [0] fixed: the entry (1, 1) is the one of
    the assembly without conditions. *)
Lemma unconstrained_entries_unchanged_witness :
  (assemble_form Demo.heap WholeMat None Demo.a_square [Demo.bc_left]).1 1 1
  = (assemble_form Demo.heap WholeMat None Demo.a_square []).1 1 1.
Proof.
  apply (unconstrained_entries_unchanged Demo.heap WholeMat None Demo.a_square
           [Demo.bc_left] 1 1); reflexivity.
Defined.

(** ** Accumulation and the order of the cells *)

Section CellSums.
Context {R : Type} {SR : Scalar R} (heap : SpaceId -> FunctionSpace).
Variable ropp : R -> R.
Hypothesis Rth : ring_theory rzero rone radd rmul rsub ropp (@eq R).

Add Ring cell_ring : Rth.

Lemma sum_over_perm {X} (P : X -> bool) (f : X -> R) xs ys :
  xs ≡ₚ ys -> sum_over P f xs = sum_over P f ys.
Proof.
  induction 1 as [|x xs ys _ IH|x y xs|xs ys zs _ IH1 _ IH2]; simpl.
  - done.
  - by rewrite IH.
  - destruct (P x), (P y); ring.
  - by rewrite IH1.
Qed.

(** A loop whose every step adds to the value read from the state. *)
Lemma for_all_additive {X St} (read : St -> R)
  (step : X -> St -> St * list (Event (R:=R))) (delta : X -> R) xs s :
  (forall x s1, read (step x s1).1 = radd (read s1) (delta x)) ->
  read (for_all step xs s).1 = radd (read s) (sum_over (fun _ => true) delta xs).
Proof.
  intros Hstep. revert s. induction xs as [|x xs IH]; intros s; simpl; [ring|].
  rewrite IH, Hstep. ring.
Qed.

Lemma assemble_vec_cell_adds (L : Form (R:=R)) c (b : nat -> R) r :
  (assemble_vec_cell heap L c b).1 r
  = radd (b r) ((assemble_vec_cell heap L c vec_init).1 r).
Proof.
  unfold assemble_vec_cell. cbn [fst]. unfold vec_add_local.
  rewrite !(vec_add_pairs_sum ropp Rth). unfold vec_init. ring.
Qed.

Lemma vec_loop_sum (L : Form (R:=R)) cells (b : nat -> R) r :
  (for_all (assemble_vec_cell heap L) cells b).1 r
  = radd (b r) (sum_over (fun _ => true)
                         (fun c => (assemble_vec_cell heap L c vec_init).1 r) cells).
Proof.
  apply (for_all_additive (fun x : nat -> R => x r)). intros c b1.
  apply assemble_vec_cell_adds.
Qed.

(** X5.  Vector assembly accumulates: a vector that is not empty is
    not re-initialised, and assembling into it gives, entry by entry, its
    previous contents plus what the assembly into an empty vector gives
    (ring arithmetic). *)
Theorem assemble_vec_form_accumulates (x : nat -> R) (L : Form (R:=R)) r :
  (assemble_vec_form heap (VecData x) L).1 r
  = radd (x r) ((assemble_vec_form heap VecEmpty L).1 r).
Proof.
  unfold assemble_vec_form. cbn [fst]. rewrite !vec_loop_sum. unfold vec_init. ring.
Qed.

(** X6.  With ring arithmetic the assembled vector does not depend on
    the order in which the mesh hands out its cells: two linear forms
    with the same test space and the same kernel, on meshes whose cell
    lists are permutations of each other, assemble to the same entries. *)
Theorem assemble_vec_form_cell_order (b : PETScVector) (L L' : Form (R:=R)) r :
  function_space L 0 = function_space L' 0 ->
  tabulate_tensor L = tabulate_tensor L' ->
  mesh_cells (form_mesh L) ≡ₚ mesh_cells (form_mesh L') ->
  (assemble_vec_form heap b L).1 r = (assemble_vec_form heap b L').1 r.
Proof.
  intros HV Htab Hperm. unfold assemble_vec_form. cbn [fst]. rewrite !vec_loop_sum.
  f_equal. rewrite (sum_over_perm _ _ _ _ Hperm). apply (sum_over_ext ropp Rth).
  intros c _ _. unfold assemble_vec_cell, tabulate_vector. by rewrite HV, Htab.
Qed.

Lemma assemble_cell_adds Aid (a : Form (R:=R)) (bv0 bv1 : gmap nat R) cell
  (A : nat -> nat -> R) r c :
  (assemble_cell heap Aid a bv0 bv1 cell A).1 r c
  = radd (A r c) ((assemble_cell heap Aid a bv0 bv1 cell mat_init).1 r c).
Proof.
  unfold assemble_cell. cbn [fst]. unfold mat_add_local.
  rewrite !(mat_add_pairs_sum ropp Rth). unfold mat_init. ring.
Qed.

Lemma mat_loop_sum Aid (a : Form (R:=R)) (bv0 bv1 : gmap nat R) cells
  (A : nat -> nat -> R) r c :
  (for_all (assemble_cell heap Aid a bv0 bv1) cells A).1 r c
  = radd (A r c)
         (sum_over (fun _ => true)
            (fun cell => (assemble_cell heap Aid a bv0 bv1 cell mat_init).1 r c) cells).
Proof.
  apply (for_all_additive (fun m : nat -> nat -> R => m r c)). intros cell m.
  apply assemble_cell_adds.
Qed.

(** The boundary maps see the mesh only through the size of its
    communicator. *)
Lemma boundary_values_by_axis_mesh V0 V1 (mesh mesh' : Mesh)
  (bcs : list (DirichletBC (R:=R))) :
  mpi_size mesh = mpi_size mesh' ->
  boundary_values_by_axis heap V0 V1 mesh bcs
  = boundary_values_by_axis heap V0 V1 mesh' bcs.
Proof.
  intros Hsize. unfold boundary_values_by_axis, collect_bc. by rewrite Hsize.
Qed.

(** X7.  With ring arithmetic the assembled matrix does not depend on
    the order of the cells either: two forms with the same spaces and
    the same kernel, on meshes with the same communicator size whose
    cell lists are permutations of each other, assemble to the same
    entries under the same boundary conditions. *)
Theorem assemble_form_cell_order (Aid : MatId) (A : option (nat -> nat -> R))
  (a a' : Form (R:=R)) (bcs : list DirichletBC) r c :
  function_space a 0 = function_space a' 0 ->
  function_space a 1 = function_space a' 1 ->
  tabulate_tensor a = tabulate_tensor a' ->
  mpi_size (form_mesh a) = mpi_size (form_mesh a') ->
  mesh_cells (form_mesh a) ≡ₚ mesh_cells (form_mesh a') ->
  (assemble_form heap Aid A a bcs).1 r c = (assemble_form heap Aid A a' bcs).1 r c.
Proof.
  intros HV0 HV1 Htab Hsize Hperm. unfold assemble_form.
  rewrite <- HV0, <- HV1.
  rewrite <- (boundary_values_by_axis_mesh _ _ _ _ bcs Hsize).
  set (bvs := boundary_values_by_axis heap _ _ _ bcs).
  assert (Hcl : forall m,
            (for_all (assemble_cell heap Aid a bvs.1.1 bvs.1.2)
                     (mesh_cells (form_mesh a)) m).1 r c
            = (for_all (assemble_cell heap Aid a' bvs.1.1 bvs.1.2)
                       (mesh_cells (form_mesh a')) m).1 r c).
  { intros m. rewrite !mat_loop_sum. f_equal.
    rewrite (sum_over_perm _ _ _ _ Hperm). apply (sum_over_ext ropp Rth).
    intros cell _ _. unfold assemble_cell, cell_matrix, tabulate_matrix.
    by rewrite HV0, HV1, Htab. }
  destruct A as [m|]; cbn [fst];
    (case_bool_decide; cbn [fst]; [|apply Hcl]);
    unfold mat_zero_local; case_bool_decide; done || apply Hcl.
Qed.

Lemma coeff_tabulate_matrix (a : Form (R:=R)) cell n0 n1 i j :
  n0 = length (cell_dofs (heap (function_space a 0)) cell) ->
  i < n0 -> j < n1 ->
  coeff (tabulate_matrix heap a cell (mat_setZero n0 n1)) i j = tabulate_tensor a cell i j.
Proof.
  intros -> Hi Hj. unfold coeff, tabulate_matrix, mat_setZero.
  rewrite list_lookup_imap, lookup_replicate_2 by done. simpl.
  rewrite bool_decide_eq_true_2 by done.
  by rewrite list_lookup_imap, lookup_replicate_2.
Qed.

(** X8.  Without boundary conditions, the entry [(r, c)] of the matrix
    assembled from empty is the sum, over the cells in mesh order and
    over the local indices [(i, j)] of the cell that the two index arrays
    send to [(r, c)], of the kernel's value [(i, j)] on the cell (ring
    arithmetic). *)
Theorem assembled_entry_is_sum_of_cell_tensors (Aid : MatId) (a : Form (R:=R)) r c :
  (assemble_form heap Aid None a []).1 r c
  = sum_over (fun _ => true)
      (fun cell =>
         sum_over (fun p : nat * nat => bool_decide (p.2 = r))
           (fun p =>
              sum_over (fun q : nat * nat => bool_decide (q.2 = c))
                (fun q => tabulate_tensor a cell p.1 q.1)
                (indexed (cell_dofs (heap (function_space a 1)) cell)))
           (indexed (cell_dofs (heap (function_space a 0)) cell)))
      (mesh_cells (form_mesh a)).
Proof.
  unfold assemble_form.
  change (boundary_values_by_axis heap (function_space a 0) (function_space a 1)
            (form_mesh a) []) with ((∅ : gmap nat R, ∅ : gmap nat R), @nil (Event (R:=R))).
  cbn [fst snd].
  assert (Hcl : (for_all (assemble_cell heap Aid a ∅ ∅) (mesh_cells (form_mesh a))
                   mat_init).1 r c
                = sum_over (fun _ => true)
                    (fun cell =>
                       sum_over (fun p : nat * nat => bool_decide (p.2 = r))
                         (fun p =>
                            sum_over (fun q : nat * nat => bool_decide (q.2 = c))
                              (fun q => tabulate_tensor a cell p.1 q.1)
                              (indexed (cell_dofs (heap (function_space a 1)) cell)))
                         (indexed (cell_dofs (heap (function_space a 0)) cell)))
                    (mesh_cells (form_mesh a))).
  { rewrite mat_loop_sum. unfold mat_init at 1.
    rewrite (sum_over_ext ropp Rth _ _
               (fun cell =>
                  sum_over (fun p : nat * nat => bool_decide (p.2 = r))
                    (fun p =>
                       sum_over (fun q : nat * nat => bool_decide (q.2 = c))
                         (fun q => tabulate_tensor a cell p.1 q.1)
                         (indexed (cell_dofs (heap (function_space a 1)) cell)))
                    (indexed (cell_dofs (heap (function_space a 0)) cell)))).
    - ring.
    - intros cell _ _. unfold assemble_cell. cbn [fst]. unfold mat_add_local.
      rewrite (mat_add_pairs_sum ropp Rth). unfold mat_init.
      rewrite (sum_over_ext ropp Rth _ _
                 (fun p : nat * nat =>
                    sum_over (fun q : nat * nat => bool_decide (q.2 = c))
                      (fun q => tabulate_tensor a cell p.1 q.1)
                      (indexed (cell_dofs (heap (function_space a 1)) cell)))).
      + ring.
      + intros [i ii] Hp _. apply (sum_over_ext ropp Rth). intros [j jj] Hq _.
        cbn [fst]. apply elem_of_indexed in Hp. apply elem_of_indexed in Hq.
        rewrite coeff_cell_matrix_raw. apply coeff_tabulate_matrix; [done| |].
        * by eapply lookup_lt_Some.
        * by eapply lookup_lt_Some. }
  case_bool_decide; cbn [fst]; [|exact Hcl].
  unfold mat_zero_local. rewrite map_to_list_empty.
  rewrite bool_decide_eq_false_2; [exact Hcl|].
  intros [_ Hin]. by apply elem_of_nil in Hin.
Qed.

End CellSums.

Lemma assemble_vec_form_accumulates_witness :
  (assemble_vec_form Demo.heap (VecData (fun _ => 7%Z)) Demo.L0).1 1
  = Z.add 7%Z ((assemble_vec_form Demo.heap VecEmpty Demo.L0).1 1).
Proof.
  exact (assemble_vec_form_accumulates (SR:=Z_scalar) Demo.heap Z.opp InitialRing.Zth
           (fun _ => 7%Z) Demo.L0 1).
Defined.

(** The two cells of the interval, visited in the other order. *)
Lemma assemble_vec_form_cell_order_witness :
  (assemble_vec_form Demo.heap VecEmpty Demo.L0).1 1
  = (assemble_vec_form Demo.heap VecEmpty
       (mkForm (mkMesh [1; 0] 1) (fun _ => 0) (tabulate_tensor Demo.L0))).1 1.
Proof.
  apply (assemble_vec_form_cell_order (SR:=Z_scalar) Demo.heap Z.opp InitialRing.Zth).
  - reflexivity.
  - reflexivity.
  - apply perm_swap.
Defined.

Lemma assemble_form_cell_order_witness :
  (assemble_form Demo.heap WholeMat None Demo.a_square [Demo.bc_left]).1 1 2
  = (assemble_form Demo.heap WholeMat None
       (mkForm (mkMesh [1; 0] 1) (fun _ => 0) Demo.kernel) [Demo.bc_left]).1 1 2.
Proof.
  apply (assemble_form_cell_order (SR:=Z_scalar) Demo.heap Z.opp InitialRing.Zth).
  - reflexivity.
  - reflexivity.
  - reflexivity.
  - reflexivity.
  - apply perm_swap.
Defined.

(** The middle dof of the interval is shared by the two cells: the
    entry (1, 1) is the kernel's (1, 1) on cell 0 plus its (0, 0) on
    cell 1. *)
Lemma assembled_entry_is_sum_of_cell_tensors_witness :
  (assemble_form Demo.heap WholeMat None Demo.a_square []).1 1 1
  = Z.add (Demo.kernel 0 1 1) (Demo.kernel 1 0 0).
Proof.
  exact (assembled_entry_is_sum_of_cell_tensors (SR:=Z_scalar) Demo.heap Z.opp InitialRing.Zth
           WholeMat Demo.a_square 1 1).
Defined.

(** ** The lifting correction on the whole vector *)

Section LiftingFrame.
Context {R : Type} {SR : Scalar R} (heap : SpaceId -> FunctionSpace).

Lemma vec_add_pairs_other (be : list R) (ps : list (nat * nat)) (b : nat -> R) r :
  r ∉ ps.*2 -> vec_add_pairs be ps b r = b r.
Proof.
  unfold vec_add_pairs. revert b. induction ps as [|p ps IH]; intros b Hr; [done|].
  simpl in *. apply not_elem_of_cons in Hr as [Hne Hr].
  rewrite IH by done. unfold vec_add_entry. by rewrite bool_decide_eq_false_2.
Qed.

(** X9.  The lifting correction changes the vector only at the dofs
    of cells that have a boundary dof: an entry [r] is as it was when
    every cell whose index array holds [r] has no dof in the boundary
    map.  With no boundary condition at all, or none on this rank's
    cells, the vector is unchanged. *)
Theorem apply_bc_frame (b : nat -> R) (a : Form (R:=R)) (bcs : list DirichletBC) r :
  (forall cell, cell ∈ mesh_cells (form_mesh a) ->
     r ∈ cell_dofs (heap (function_space a 1)) cell ->
     Forall (fun d => (boundary_values_of heap (function_space a 1) (form_mesh a) 1
                         bcs).1 !! d = None)
            (cell_dofs (heap (function_space a 1)) cell)) ->
  (apply_bc heap b a bcs).1 r = b r.
Proof.
  unfold apply_bc. cbn [fst].
  set (bv := (boundary_values_of heap _ _ 1 bcs).1).
  generalize (mesh_cells (form_mesh a)). intros cells. revert b.
  induction cells as [|cell cells IH]; intros b Hcells; [done|].
  cbn [for_all fst]. rewrite IH by (intros c Hc; apply Hcells; by right).
  unfold apply_bc_cell.
  destruct (existsb (is_bc bv) (cell_dofs (heap (function_space a 1)) cell)) eqn:Hbc;
    cbn [negb]; [|done].
  unfold lift_cell. cbn [fst]. unfold vec_add_local. apply vec_add_pairs_other.
  rewrite indexed_snd. intros Hr.
  pose proof (Hcells cell ltac:(by left) Hr) as Hnone.
  apply no_bc_on_cell in Hnone. congruence.
Qed.

End LiftingFrame.

(** Dof [0] is fixed; dof [2] belongs to the second cell only, which
    has no boundary dof. *)
Lemma apply_bc_frame_witness :
  (apply_bc Demo.heap Demo.bvec Demo.a_square [Demo.bc_left]).1 2 = Demo.bvec 2.
Proof.
  apply (apply_bc_frame Demo.heap Demo.bvec Demo.a_square [Demo.bc_left] 2).
  intros cell Hcell Hr. simpl in Hcell.
  apply elem_of_cons in Hcell as [->|Hcell].
  - simpl in Hr. apply elem_of_cons in Hr as [Hr|Hr]; [lia|].
    apply elem_of_cons in Hr as [Hr|Hr]; [lia|]. by apply elem_of_nil in Hr.
  - apply elem_of_cons in Hcell as [->|Hcell]; [|by apply elem_of_nil in Hcell].
    repeat constructor.
Defined.

(** ** The assembled right-hand side *)

Section LiftedSystem.
Context {R : Type} {SR : Scalar R} (heap : SpaceId -> FunctionSpace).
Variable ropp : R -> R.
Hypothesis Rth : ring_theory rzero rone radd rmul rsub ropp (@eq R).

Add Ring lifted_ring : Rth.

(** A zero row of the element matrix gives a zero entry of the
    correction vector. *)
Lemma lifting_entry_zero_row (bv : gmap nat R) dmap1 (Ae : list (list R)) i :
  (forall j, coeff Ae i j = rzero) -> lifting_entry bv dmap1 Ae i = rzero.
Proof.
  intros Hrow. unfold lifting_entry. generalize (seq 0 (length dmap1)). intros js.
  induction js as [|j js IH] using rev_ind; [done|].
  rewrite foldl_app. simpl. rewrite IH.
  destruct (dmap1 !! j ≫= (bv !!.)) as [v|]; [|done]. rewrite Hrow. ring.
Qed.

(** X10.  When the two spaces of the form are the same object, the
    lifting correction leaves the entry of every boundary dof as it was
    (ring arithmetic): the boundary rows of the element matrix are zeroed
    before the correction vector is formed. *)
Theorem apply_bc_keeps_boundary_rows (b : nat -> R) (a : Form (R:=R))
  (bcs : list DirichletBC) r :
  function_space a 0 = function_space a 1 ->
  is_Some ((boundary_values_of heap (function_space a 1) (form_mesh a) 1 bcs).1 !! r) ->
  (apply_bc heap b a bcs).1 r = b r.
Proof.
  intros HV. unfold apply_bc. cbn [fst].
  set (bv := (boundary_values_of heap _ _ 1 bcs).1). intros Hr.
  generalize (mesh_cells (form_mesh a)). intros cells. revert b.
  induction cells as [|cell cells IH]; intros b; [done|].
  cbn [for_all fst]. rewrite IH. unfold apply_bc_cell.
  set (dmap := cell_dofs (heap (function_space a 1)) cell).
  destruct (existsb (is_bc bv) dmap) eqn:Hbc; cbn [negb]; [|done].
  unfold lift_cell. cbn [fst]. rewrite bool_decide_eq_true_2 by done.
  set (K := tabulate_matrix heap a cell (mat_setZero (length dmap) (length dmap))).
  unfold vec_add_local. rewrite (vec_add_pairs_sum ropp Rth).
  rewrite (sum_over_ext ropp Rth _ _ (fun _ => rzero)).
  - rewrite (sum_over_zero ropp Rth). ring.
  - intros [i ii] Hp HP. cbn [fst snd] in *. apply bool_decide_eq_true_1 in HP. subst ii.
    apply elem_of_indexed in Hp.
    assert (Hi : i < length dmap) by (by eapply lookup_lt_Some).
    assert (HlenK : length (zero_bc_rows bv dmap K) = length dmap).
    { rewrite length_zero_bc_rows. unfold K.
      rewrite length_tabulate_matrix. apply length_replicate. }
    unfold vcoeff. rewrite (lifting_vector_lookup _ _ _ _ i HlenK Hi). simpl.
    apply lifting_entry_zero_row. intros j. rewrite coeff_zero_bc_rows.
    unfold bc_at. rewrite Hp. unfold is_bc. by rewrite bool_decide_eq_true_2.
Qed.

(** X11.  A single-field system -- a 1 x 1 table with a form whose two
    spaces are the same object, one linear form, one boundary dof [cdof]
    with value [v] in both boundary maps.  [assemble(PETScVector&)]
    returns the vector whose entry at [cdof] is [v] and whose entry at
    any other [i] is [F(i) - A(i, cdof) * v], where [F] is the load
    vector assembled from the linear form and [A] the matrix of the
    bilinear form assembled without boundary conditions (ring
    arithmetic). *)
Theorem assemble_vector_single_field (asm : Assembler (R:=R)) (b : PETScVector)
  (a L0 : Form (R:=R)) cdof v :
  _a asm = [[Some a]] ->
  _l asm = [L0] ->
  function_space a 0 = function_space a 1 ->
  (boundary_values_of heap (function_space a 1) (form_mesh a) 1 (_bcs asm)).1
  = {[cdof := v]} ->
  (boundary_values_of heap (function_space L0 0) (form_mesh L0) 0 (_bcs asm)).1
  = {[cdof := v]} ->
  status (assemble_vector heap asm b) = None /\
  exists x, final (assemble_vector heap asm b) = VecData x /\
            x cdof = v /\
            forall i, i ≠ cdof ->
              x i = rsub ((assemble_vec_form heap b L0).1 i)
                         (rmul ((assemble_form heap WholeMat None a []).1 i cdof) v).
Proof.
  intros Ha Hl HV Hbv1 Hbv0. unfold assemble_vector, lift_rows.
  rewrite Hl, Ha. cbn [lookup list_lookup length seq for_each].
  unfold and_then, lift, ret. cbn [status final trace].
  split; [done|]. eexists. split; [reflexivity|].
  unfold set_bc. cbn [fst]. split.
  - by rewrite vec_set_local_map, Hbv0, lookup_singleton_eq.
  - intros i Hi. rewrite vec_set_local_map, Hbv0, lookup_singleton_ne by done.
    cbn [default]. unfold apply_bc. cbn [fst]. rewrite Hbv1.
    rewrite (lifting_loop_one_dof heap ropp Rth a (mesh_cells (form_mesh a)) WholeMat
               mat_init _ cdof v i HV Hi).
    unfold assemble_form. cbn [fst snd].
    rewrite bool_decide_eq_true_2 by done. cbn [fst].
    unfold mat_zero_local.
    rewrite bool_decide_eq_false_2.
    2:{ intros [_ Hin]. unfold boundary_values_by_axis in Hin. cbn in Hin.
        rewrite map_to_list_empty in Hin. by apply elem_of_nil in Hin. }
    unfold boundary_values_by_axis. cbn [indexed indexed_from length seq zip zip_with
                                         for_all fst snd].
    unfold mat_init at 2. ring.
Qed.

End LiftedSystem.

Lemma apply_bc_keeps_boundary_rows_witness :
  (apply_bc Demo.heap Demo.bvec Demo.a_square [Demo.bc_left]).1 0 = Demo.bvec 0.
Proof.
  apply (apply_bc_keeps_boundary_rows (SR:=Z_scalar) Demo.heap Z.opp InitialRing.Zth
           Demo.bvec Demo.a_square [Demo.bc_left] 0).
  - reflexivity.
  - by exists 5%Z.
Defined.

(** The single-field system on the interval, dof [0] fixed to [5]. *)
Lemma assemble_vector_single_field_witness :
  status (assemble_vector Demo.heap Demo.asm_plain VecEmpty) = None /\
  exists x, final (assemble_vector Demo.heap Demo.asm_plain VecEmpty) = VecData x /\
            x 0 = 5%Z /\
            forall i, i ≠ 0 ->
              x i = Z.sub ((assemble_vec_form Demo.heap VecEmpty Demo.L0).1 i)
                          (Z.mul ((assemble_form Demo.heap WholeMat None
                                     Demo.a_square []).1 i 0) 5%Z).
Proof.
  apply (assemble_vector_single_field (SR:=Z_scalar) Demo.heap Z.opp InitialRing.Zth
           Demo.asm_plain VecEmpty Demo.a_square Demo.L0 0 5%Z); reflexivity.
Defined.

(** ** The sub-blocks of the nested matrix *)

Section BlockContents.
Context {R : Type} {SR : Scalar R} (heap : SpaceId -> FunctionSpace).

Lemma flat_index_inj (nc i j i' j' : nat) :
  j < nc -> j' < nc -> i * nc + j = i' * nc + j' -> i = i' /\ j = j'.
Proof.
  intros Hj Hj' Heq.
  destruct (lt_eq_lt_dec i i') as [[Hlt| ->]|Hlt].
  - assert ((i + 1) * nc <= i' * nc) by (apply Nat.mul_le_mono_r; lia). lia.
  - split; [done|lia].
  - assert ((i' + 1) * nc <= i * nc) by (apply Nat.mul_le_mono_r; lia). lia.
Qed.

Lemma blocks_state_ext (a : list (list (option (Form (R:=R))))) nc bcs
  (V V' : nat -> nat -> bool) subs :
  (forall i j row e, a !! i = Some row -> row !! j = Some e ->
     block_entry heap bcs (V i j) i j e = block_entry heap bcs (V' i j) i j e) ->
  blocks_state heap a nc bcs V subs -> blocks_state heap a nc bcs V' subs.
Proof.
  intros Hext HS i j row e Hi Hj. rewrite <- (Hext i j row e Hi Hj).
  exact (HS i j row e Hi Hj).
Qed.

(** One block: the sub-matrix at its position is replaced by its
    assembly, every other position is as before. *)
Lemma assemble_block_state (a : list (list (option (Form (R:=R))))) nc bcs
  (V : nat -> nat -> bool) subs i j row f :
  Forall (fun r => length r = nc) a ->
  a !! i = Some row -> row !! j = Some (Some f) ->
  V i j = false ->
  blocks_state heap a nc bcs V subs ->
  exists subs',
    assemble_block heap i j f bcs (MatNest (length a) nc subs)
    = mkRun None (MatNest (length a) nc subs')
        (trace (assemble_block heap i j f bcs (MatNest (length a) nc subs))) /\
    length subs' = length subs /\
    blocks_state heap a nc bcs
      (fun i' j' => V i' j' || bool_decide (i' = i /\ j' = j)) subs'.
Proof.
  intros Hrect Hi Hj HV HS.
  assert (Hilt : i < length a) by (by eapply lookup_lt_Some).
  assert (Hjlt : j < nc).
  { rewrite <- (proj1 (Forall_lookup _ _) Hrect i row Hi). by eapply lookup_lt_Some. }
  pose proof (HS i j row (Some f) Hi Hj) as Hpos. rewrite HV in Hpos. cbn in Hpos.
  unfold assemble_block. rewrite bool_decide_eq_true_2 by done. rewrite Hpos.
  eexists. split; [reflexivity|]. split; [by rewrite length_insert|].
  intros i' j' row' e' Hi' Hj'.
  assert (Hjlt' : j' < nc).
  { rewrite <- (proj1 (Forall_lookup _ _) Hrect i' row' Hi'). by eapply lookup_lt_Some. }
  destruct (decide (i' = i /\ j' = j)) as [[-> ->]|Hne].
  - rewrite Hi in Hi'. injection Hi' as <-. rewrite Hj in Hj'. injection Hj' as <-.
    rewrite list_lookup_insert_eq by (by eapply lookup_lt_Some).
    rewrite bool_decide_eq_true_2 by done. by rewrite orb_true_r.
  - rewrite list_lookup_insert_ne.
    + rewrite bool_decide_eq_false_2 by done. rewrite orb_false_r.
      exact (HS i' j' row' e' Hi' Hj').
    + intros Heq. apply Hne. symmetry in Heq.
      by apply (flat_index_inj nc i' j' i j).
Qed.

Lemma assemble_row_state (a : list (list (option (Form (R:=R))))) nc bcs i row qs :
  Forall (fun r => length r = nc) a ->
  a !! i = Some row ->
  NoDup qs.*1 ->
  (forall q, q ∈ qs -> row !! q.1 = Some q.2) ->
  forall (V : nat -> nat -> bool) subs,
    (forall q, q ∈ qs -> V i q.1 = false) ->
    blocks_state heap a nc bcs V subs ->
    exists subs' t,
      for_each (fun q A2 =>
                  match q.2 with
                  | Some f => assemble_block heap i q.1 f bcs A2
                  | None => ret A2
                  end) qs (MatNest (length a) nc subs)
      = mkRun None (MatNest (length a) nc subs') t /\
      length subs' = length subs /\
      blocks_state heap a nc bcs
        (fun i' j' => V i' j' || bool_decide (i' = i /\ j' ∈ qs.*1)) subs'.
Proof.
  intros Hrect Hi. induction qs as [|[j e] qs IH]; intros Hnd Hqs V subs HV HS.
  - exists subs, []. split; [done|]. split; [done|].
    eapply blocks_state_ext; [|exact HS]. intros i' j' row' e' _ _.
    rewrite bool_decide_eq_false_2; [by rewrite orb_false_r|].
    intros [_ Hin]. by apply elem_of_nil in Hin.
  - cbn [fmap list_fmap fst] in Hnd. apply NoDup_cons in Hnd as [Hj Hnd].
    assert (Hrj : row !! j = Some e) by (apply (Hqs (j, e)); by left).
    assert (Hqs' : forall q, q ∈ qs -> row !! q.1 = Some q.2).
    { intros q Hq. apply Hqs. by right. }
    assert (HVj : V i j = false) by (apply (HV (j, e)); by left).
    assert (Hmem : forall i' j',
               bool_decide (i' = i /\ j' ∈ j :: qs.*1)
               = bool_decide (i' = i /\ j' = j) || bool_decide (i' = i /\ j' ∈ qs.*1)).
    { intros i' j'. destruct (decide (i' = i /\ j' = j)) as [[-> ->]|Hne].
      - rewrite (bool_decide_eq_true_2 (i = i /\ j = j)) by done.
        rewrite bool_decide_eq_true_2; [done|]. split; [done|by left].
      - rewrite (bool_decide_eq_false_2 (i' = i /\ j' = j)) by done. cbn [orb].
        apply bool_decide_ext. split.
        + intros [-> Hin]. split; [done|].
          apply elem_of_cons in Hin as [->|Hin]; [|done]. by destruct Hne.
        + intros [? ?]. split; [done|by right]. }
    cbn [for_each fst snd]. destruct e as [f|].
    + destruct (assemble_block_state a nc bcs V subs i j row f Hrect Hi Hrj HVj HS)
        as (subs1 & Hrun & Hlen1 & HS1).
      rewrite Hrun. rewrite and_then_ok by done. cbn [final trace status].
      assert (HV1 : forall q, q ∈ qs ->
                      V i q.1 || bool_decide (i = i /\ q.1 = j) = false).
      { intros q Hq. rewrite (HV q) by (by right). cbn [orb].
        apply bool_decide_eq_false_2. intros [_ Hq1]. apply Hj. rewrite <- Hq1.
        apply list_elem_of_fmap. by exists q. }
      destruct (IH Hnd Hqs' (fun i' j' => V i' j' || bool_decide (i' = i /\ j' = j)) subs1
                  HV1 HS1) as (subs' & t & Hrun' & Hlen' & HS').
      rewrite Hrun'. cbn [final trace status].
      eexists subs', _. split; [reflexivity|]. split; [congruence|].
      eapply blocks_state_ext; [|exact HS']. intros i' j' row' e' _ _.
      cbn [fmap list_fmap fst]. by rewrite Hmem, orb_assoc.
    + rewrite and_then_ok by done. cbn [final trace status ret].
      destruct (IH Hnd Hqs' V subs (fun q Hq => HV q ltac:(by right)) HS)
        as (subs' & t & Hrun' & Hlen' & HS').
      rewrite Hrun'. cbn [final trace status].
      eexists subs', _. split; [reflexivity|]. split; [done|].
      eapply blocks_state_ext; [|exact HS']. intros i' j' row' e' Hi' Hj'.
      cbn [fmap list_fmap fst]. rewrite Hmem.
      destruct (decide (i' = i /\ j' = j)) as [[-> ->]|Hne].
      * rewrite Hi in Hi'. injection Hi' as <-. rewrite Hrj in Hj'. by injection Hj' as <-.
      * by rewrite (bool_decide_eq_false_2 (i' = i /\ j' = j)) by done.
Qed.

Lemma indexed_fst {X} (l : list X) : (indexed l).*1 = seq 0 (length l).
Proof. unfold indexed, indexed_from. apply fst_zip. by rewrite length_seq. Qed.

Lemma assemble_rows_state (a : list (list (option (Form (R:=R))))) nc bcs ps :
  Forall (fun r => length r = nc) a ->
  NoDup ps.*1 ->
  (forall p, p ∈ ps -> a !! p.1 = Some p.2) ->
  forall (V : nat -> nat -> bool) subs,
    (forall p j, p ∈ ps -> V p.1 j = false) ->
    blocks_state heap a nc bcs V subs ->
    exists subs' t,
      for_each (fun p A1 =>
                  for_each (fun q A2 =>
                              match q.2 with
                              | Some f => assemble_block heap p.1 q.1 f bcs A2
                              | None => ret A2
                              end) (indexed p.2) A1) ps (MatNest (length a) nc subs)
      = mkRun None (MatNest (length a) nc subs') t /\
      length subs' = length subs /\
      blocks_state heap a nc bcs
        (fun i' j' => V i' j' || bool_decide (i' ∈ ps.*1)) subs'.
Proof.
  intros Hrect. induction ps as [|[i row] ps IH]; intros Hnd Hps V subs HV HS.
  - exists subs, []. split; [done|]. split; [done|].
    eapply blocks_state_ext; [|exact HS]. intros i' j' row' e' _ _.
    rewrite bool_decide_eq_false_2; [by rewrite orb_false_r|].
    intros Hin. by apply elem_of_nil in Hin.
  - cbn [fmap list_fmap fst] in Hnd. apply NoDup_cons in Hnd as [Hi' Hnd].
    assert (Hi : a !! i = Some row) by (apply (Hps (i, row)); by left).
    assert (Hps' : forall p, p ∈ ps -> a !! p.1 = Some p.2).
    { intros p Hp. apply Hps. by right. }
    cbn [for_each fst snd].
    destruct (assemble_row_state a nc bcs i row (indexed row) Hrect Hi
                ltac:(rewrite indexed_fst; apply NoDup_seq)
                (fun q Hq => elem_of_indexed row q.1 q.2 ltac:(by destruct q))
                V subs (fun q _ => HV (i, row) q.1 ltac:(by left)) HS)
      as (subs1 & t1 & Hrun1 & Hlen1 & HS1).
    rewrite Hrun1. rewrite and_then_ok by done. cbn [final trace status].
    assert (HV1 : forall p j, p ∈ ps ->
                    V p.1 j || bool_decide (p.1 = i /\ j ∈ (indexed row).*1) = false).
    { intros p j Hp. rewrite (HV p j) by (by right). cbn [orb].
      apply bool_decide_eq_false_2. intros [Hpi _]. apply Hi'. rewrite <- Hpi.
      apply list_elem_of_fmap. by exists p. }
    destruct (IH Hnd Hps'
                (fun i' j' => V i' j' || bool_decide (i' = i /\ j' ∈ (indexed row).*1))
                subs1 HV1 HS1) as (subs' & t & Hrun' & Hlen' & HS').
    rewrite Hrun'. cbn [final trace status].
    eexists subs', _. split; [reflexivity|]. split; [congruence|].
    eapply blocks_state_ext; [|exact HS']. intros i' j' row' e' Hi'' Hj''.
    cbn [fmap list_fmap fst]. f_equal. rewrite <- orb_assoc. f_equal.
    destruct (decide (i' = i)) as [->|Hne].
    + rewrite Hi in Hi''. injection Hi'' as <-.
      rewrite (bool_decide_eq_true_2 (i ∈ i :: _)) by (by left).
      rewrite bool_decide_eq_true_2; [done|].
      split; [done|]. rewrite indexed_fst. apply elem_of_seq.
      apply lookup_lt_Some in Hj''. lia.
    + rewrite (bool_decide_eq_false_2 (i' = i /\ _)) by (by intros [? _]). cbn [orb].
      apply bool_decide_ext. split; [by right|].
      intros Hin. apply elem_of_cons in Hin as [?|?]; done.
Qed.

Lemma init_blocks_state (a : list (list (option (Form (R:=R))))) nc bcs :
  Forall (fun r => length r = nc) a ->
  blocks_state heap a nc bcs (fun _ _ => false) (take (length a * nc) (init_blocks a).1).
Proof.
  intros Hrect i j row e Hi Hj.
  assert (Hjlt : j < nc).
  { rewrite <- (proj1 (Forall_lookup _ _) Hrect i row Hi). by eapply lookup_lt_Some. }
  rewrite take_ge
    by (rewrite init_blocks_shape, length_map, (length_concat_rect a nc) by done; lia).
  rewrite init_blocks_shape.
  change (map ?f ?l) with (f <$> l). rewrite list_lookup_fmap.
  rewrite (lookup_concat_rect a nc i j row Hrect Hi Hjlt), Hj. by destruct e.
Qed.

(** X12.  For a nested form table (rectangular, with more than one row
    or column) and an empty matrix, the matrix the run leaves is the
    nest of [nr * nc] sub-blocks in row-major order in which the
    sub-block of an absent entry is null and the sub-block of every other
    entry [(i, j)] is exactly what the single-form assembly of that
    entry, with the Assembler's boundary conditions, makes of a freshly
    initialised matrix: no block's assembly touches another block. *)
Theorem assemble_matrix_block_contents (asm : Assembler (R:=R)) (nc : nat) :
  block_matrix (_a asm) = inr true ->
  Forall (fun row => length row = nc) (_a asm) ->
  exists subs,
    final (assemble_matrix heap asm MatEmpty) = MatNest (length (_a asm)) nc subs /\
    length subs = length (_a asm) * nc /\
    forall i j row e,
      _a asm !! i = Some row -> row !! j = Some e ->
      subs !! (i * nc + j)
      = Some (match e with
              | Some f => Some (assemble_form heap (SubMat i j) (Some mat_init) f
                                  (_bcs asm)).1
              | None => None
              end).
Proof.
  intros Hblock Hrect.
  unfold assemble_matrix. rewrite Hblock. unfold init_matrix.
  destruct (_a asm) as [|row0 rest] eqn:Ea.
  { unfold block_matrix in Hblock. simpl in Hblock. discriminate. }
  rewrite <- Ea in *. assert (H0 : _a asm !! 0 = Some row0) by (by rewrite Ea).
  rewrite H0.
  assert (Hn0 : length row0 = nc).
  { apply (proj1 (Forall_lookup _ _) Hrect 0 row0 H0). }
  rewrite Hn0. rewrite and_then_lift. cbn [fst snd].
  assert (Hlen0 : length (init_blocks (_a asm)).1 = length (_a asm) * nc).
  { by rewrite init_blocks_shape, length_map, (length_concat_rect (_a asm) nc). }
  unfold MatNestSetSubMats. rewrite bool_decide_eq_true_2 by lia.
  cbn [status final trace].
  destruct (assemble_rows_state (_a asm) nc (_bcs asm) (indexed (_a asm)) Hrect
              ltac:(rewrite indexed_fst; apply NoDup_seq)
              (fun p Hp => elem_of_indexed (_a asm) p.1 p.2 ltac:(by destruct p))
              (fun _ _ => false) _ (fun _ _ _ => eq_refl)
              (init_blocks_state (_a asm) nc (_bcs asm) Hrect))
    as (subs' & t & Hrun & Hlen & HS).
  exists subs'. rewrite and_then_ok by done. cbn [status final trace].
  unfold assemble_blocks. rewrite Hrun. rewrite and_then_ok by done.
  cbn [status final trace]. split; [done|]. split.
  - rewrite Hlen, length_take. lia.
  - intros i j row e Hi Hj. rewrite (HS i j row e Hi Hj). f_equal.
    cbn [orb]. rewrite bool_decide_eq_true_2; [by destruct e|].
    rewrite indexed_fst. apply elem_of_seq. apply lookup_lt_Some in Hi. lia.
Qed.

End BlockContents.

(** The 1 x 2 block system on one cell. *)
Lemma assemble_matrix_block_contents_witness :
  exists subs,
    final (assemble_matrix Demo.heap Demo.asm_block MatEmpty)
    = MatNest (length (_a Demo.asm_block)) 2 subs /\
    length subs = length (_a Demo.asm_block) * 2 /\
    forall i j row e,
      _a Demo.asm_block !! i = Some row -> row !! j = Some e ->
      subs !! (i * 2 + j)
      = Some (match e with
              | Some f => Some (assemble_form Demo.heap (SubMat i j) (Some mat_init) f
                                  (_bcs Demo.asm_block)).1
              | None => None
              end).
Proof.
  apply (assemble_matrix_block_contents Demo.heap Demo.asm_block 2).
  - reflexivity.
  - repeat constructor.
Defined.

(** ** The plain (1 x 1) matrix path *)

Section PlainAssembly.
Context {R : Type} {SR : Scalar R} (heap : SpaceId -> FunctionSpace).

(** X13.  For a 1 x 1 form table and an empty matrix.  When the one
    entry is absent the run stops at its dereference, before any backend
    call, and the matrix stays empty.  Otherwise the run returns the
    matrix that single-form assembly makes of a freshly initialised one;
    its events are the initialisation, the events of that single-form
    assembly, and one more finalisation: the matrix is finalised twice,
    once by the single-form assembly (before its diagonal write) and once
    more as the last event. *)
Theorem assemble_matrix_plain (asm : Assembler (R:=R)) :
  block_matrix (_a asm) = inr false ->
  match form00 (_a asm) with
  | inl e =>
      assemble_matrix heap asm MatEmpty = throw e MatEmpty /\
      (e = NullPointer \/ e = OutOfRange)
  | inr a00 =>
      assemble_matrix heap asm MatEmpty
      = mkRun None
          (MatAIJ (assemble_form heap WholeMat (Some mat_init) a00 (_bcs asm)).1)
          ([EvMatInit WholeMat] ++ form_trace heap WholeMat a00 (_bcs asm)
           ++ [EvMatApply WholeMat]) /\
      filter (λ e, is_mat_apply e) (trace (assemble_matrix heap asm MatEmpty))
      = [EvMatApply WholeMat; EvMatApply WholeMat]
  end.
Proof.
  intros Hblock. unfold assemble_matrix. rewrite Hblock. unfold init_matrix, assemble_plain.
  destruct (form00 (_a asm)) as [e|a00] eqn:E.
  - split; [done|]. unfold form00 in E.
    destruct (_a asm !! 0) as [row0|]; [|injection E as <-; by right].
    destruct (row0 !! 0) as [[a00|]|]; [done| |]; injection E as <-; [by left|by right].
  - unfold and_then. cbn [status final trace]. split; [reflexivity|].
    rewrite filter_app, filter_app. rewrite assemble_form_applies. reflexivity.
Qed.

End PlainAssembly.

Lemma assemble_matrix_plain_witness :
  assemble_matrix Demo.heap Demo.asm_plain MatEmpty
  = mkRun None
      (MatAIJ (assemble_form Demo.heap WholeMat (Some mat_init) Demo.a_square
                 [Demo.bc_left]).1)
      ([EvMatInit WholeMat] ++ form_trace Demo.heap WholeMat Demo.a_square [Demo.bc_left]
       ++ [EvMatApply WholeMat]) /\
  filter (λ e, is_mat_apply e) (trace (assemble_matrix Demo.heap Demo.asm_plain MatEmpty))
  = [EvMatApply WholeMat; EvMatApply WholeMat].
Proof.
  exact (assemble_matrix_plain Demo.heap Demo.asm_plain eq_refl).
Defined.

(** ** Gathers and finalisations *)

Section Synchronisation.
Context {R : Type} {SR : Scalar R} (heap : SpaceId -> FunctionSpace).

Lemma bc_events_same V (mesh mesh' : Mesh) axis k (bc bc' : DirichletBC (R:=R)) :
  same_space_and_method bc bc' ->
  mpi_size mesh = mpi_size mesh' ->
  bc_events heap V mesh axis (k, bc) = bc_events heap V mesh' axis (k, bc').
Proof.
  intros [Hs Hm] Hsize. unfold bc_events, collect_bc. cbn [fst snd].
  rewrite Hs, Hm, Hsize. destruct (contains _ _); [|done]. by destruct (_ && _).
Qed.

Lemma flat_map_indexed_Forall2 {X Y} (f g : nat * X -> list Y) (P : X -> X -> Prop)
  (l l' : list X) :
  (forall k x x', P x x' -> f (k, x) = g (k, x')) ->
  Forall2 P l l' ->
  forall k, flat_map f (indexed_from k l) = flat_map g (indexed_from k l').
Proof.
  intros Hfg. induction 1 as [|x x' l l' Hx _ IH]; intros k; [done|].
  unfold indexed_from in *. cbn [length seq zip zip_with flat_map].
  by rewrite (Hfg k x x' Hx), (IH (S k)).
Qed.

Lemma boundary_values_of_trace_same V (mesh mesh' : Mesh) axis
  (bcs bcs' : list (DirichletBC (R:=R))) :
  Forall2 same_space_and_method bcs bcs' ->
  mpi_size mesh = mpi_size mesh' ->
  (boundary_values_of heap V mesh axis bcs).2
  = (boundary_values_of heap V mesh' axis bcs').2.
Proof.
  intros Hbcs Hsize. rewrite !boundary_values_of_trace.
  apply (flat_map_indexed_Forall2 _ _ same_space_and_method); [|done].
  intros k bc bc' Hbc. by apply bc_events_same.
Qed.

Lemma boundary_values_by_axis_trace_same V0 V1 (mesh mesh' : Mesh)
  (bcs bcs' : list (DirichletBC (R:=R))) :
  Forall2 same_space_and_method bcs bcs' ->
  mpi_size mesh = mpi_size mesh' ->
  (boundary_values_by_axis heap V0 V1 mesh bcs).2
  = (boundary_values_by_axis heap V0 V1 mesh' bcs').2.
Proof.
  intros Hbcs Hsize. rewrite !boundary_values_by_axis_trace.
  apply (flat_map_indexed_Forall2 _ _ same_space_and_method); [|done].
  intros k bc bc' Hbc.
  by rewrite (bc_events_same V0 mesh mesh' 0 k bc bc'),
             (bc_events_same V1 mesh mesh' 1 k bc bc').
Qed.

Lemma assemble_form_sync Aid A (a : Form (R:=R)) bcs :
  filter (λ e, is_gather_or_apply e) (assemble_form heap Aid A a bcs).2
  = filter (λ e, is_gather_or_apply e)
      (boundary_values_by_axis heap (function_space a 0) (function_space a 1)
         (form_mesh a) bcs).2
    ++ [EvMatApply Aid].
Proof.
  destruct (assemble_form_trace heap Aid A a bcs)
    as (t1 & t2 & t3 & t4 & -> & H1 & -> & H3 & H4).
  rewrite !filter_app.
  rewrite (filter_none is_gather_or_apply t1), (filter_none is_gather_or_apply t3),
    (filter_none is_gather_or_apply t4).
  - by rewrite app_nil_r.
  - eapply Forall_impl; [exact H4|]. by intros [].
  - eapply Forall_impl; [exact H3|]. by intros [].
  - eapply Forall_impl; [exact H1|]. by intros [].
Qed.

Lemma apply_bc_sync b (a : Form (R:=R)) bcs :
  filter (λ e, is_gather_or_apply e) (apply_bc heap b a bcs).2
  = filter (λ e, is_gather_or_apply e)
      (boundary_values_of heap (function_space a 1) (form_mesh a) 1 bcs).2
    ++ [EvVecApply].
Proof.
  unfold apply_bc. cbn [snd]. rewrite !filter_app.
  rewrite (filter_none is_gather_or_apply (for_all _ _ _).2); [done|].
  eapply Forall_impl; [apply vec_cells_events|]. by intros [].
Qed.

(** X14.  The gathers and finalisations a run makes, and their order,
    do not depend on the data of the rank: two single-form matrix
    assemblies, two lifting corrections, and two boundary-value
    overwrites make the same sequence of gathers and finalisations
    whenever their forms have the same function spaces and communicator
    size and their boundary conditions agree, one by one, in function
    space and method -- whatever the cells, the kernels, the boundary
    values, and the contents of the matrix or vector. *)
Theorem gathers_and_finalisations_agree (bcs bcs' : list (DirichletBC (R:=R)))
  (a a' L L' : Form (R:=R)) (Aid : MatId) (A A' : option (nat -> nat -> R))
  (b b' : nat -> R) :
  Forall2 same_space_and_method bcs bcs' ->
  function_space a 0 = function_space a' 0 ->
  function_space a 1 = function_space a' 1 ->
  mpi_size (form_mesh a) = mpi_size (form_mesh a') ->
  function_space L 0 = function_space L' 0 ->
  mpi_size (form_mesh L) = mpi_size (form_mesh L') ->
  filter (λ e, is_gather_or_apply e) (assemble_form heap Aid A a bcs).2
  = filter (λ e, is_gather_or_apply e) (assemble_form heap Aid A' a' bcs').2 /\
  filter (λ e, is_gather_or_apply e) (apply_bc heap b a bcs).2
  = filter (λ e, is_gather_or_apply e) (apply_bc heap b' a' bcs').2 /\
  filter (λ e, is_gather_or_apply e) (set_bc heap b L bcs).2
  = filter (λ e, is_gather_or_apply e) (set_bc heap b' L' bcs').2.
Proof.
  intros Hbcs Ha0 Ha1 Hsa HL0 HsL. split; [|split].
  - rewrite !assemble_form_sync, <- Ha0, <- Ha1.
    by rewrite (boundary_values_by_axis_trace_same _ _ _ _ bcs bcs' Hbcs Hsa).
  - rewrite !apply_bc_sync, <- Ha1.
    by rewrite (boundary_values_of_trace_same _ _ _ _ bcs bcs' Hbcs Hsa).
  - unfold set_bc. cbn [snd]. rewrite !filter_app, <- HL0.
    rewrite (boundary_values_of_trace_same _ _ _ _ bcs bcs' Hbcs HsL). f_equal.
Qed.

End Synchronisation.

(** Two ranks: one holds both cells and the boundary value, the other
    one cell and no boundary value. *)
Lemma gathers_and_finalisations_agree_witness :
  filter (λ e, is_gather_or_apply e)
    (assemble_form Demo.heap WholeMat None Demo.a_square [Demo.bc_left]).2
  = filter (λ e, is_gather_or_apply e)
      (assemble_form Demo.heap WholeMat None Demo.a_one_cell
         [mkDirichletBC 0 "topological" (fun m => m) (fun m => m)]).2 /\
  filter (λ e, is_gather_or_apply e)
    (apply_bc Demo.heap Demo.bvec Demo.a_square [Demo.bc_left]).2
  = filter (λ e, is_gather_or_apply e)
      (apply_bc Demo.heap Demo.bvec Demo.a_one_cell
         [mkDirichletBC 0 "topological" (fun m => m) (fun m => m)]).2 /\
  filter (λ e, is_gather_or_apply e)
    (set_bc Demo.heap Demo.bvec Demo.L0 [Demo.bc_left]).2
  = filter (λ e, is_gather_or_apply e)
      (set_bc Demo.heap Demo.bvec Demo.L0
         [mkDirichletBC 0 "topological" (fun m => m) (fun m => m)]).2.
Proof.
  apply (gathers_and_finalisations_agree Demo.heap); try reflexivity.
  repeat constructor.
Defined.

(** ** The element buffer handed to [add_local] *)

Section BufferShape.
Context {R : Type} {SR : Scalar R} (heap : SpaceId -> FunctionSpace).

(** X15.  The element matrix that matrix assembly hands to [add_local]
    for a cell has one row per axis-0 dof of the cell and, in every row,
    one entry per axis-1 dof -- the sizes [add_local] is told -- whatever
    the kernel wrote and whichever rows and columns were zeroed. *)
Theorem cell_matrix_shape (a : Form (R:=R)) (bv0 bv1 : gmap nat R) (c : nat) :
  length (cell_matrix heap a bv0 bv1 c)
  = length (cell_dofs (heap (function_space a 0)) c) /\
  forall i row,
    cell_matrix heap a bv0 bv1 c !! i = Some row ->
    length row = length (cell_dofs (heap (function_space a 1)) c).
Proof.
  unfold cell_matrix. rewrite zero_bc_cols_closed, zero_bc_rows_closed.
  unfold tabulate_matrix, mat_setZero. split.
  - by rewrite length_fmap, !length_imap, length_replicate.
  - intros i row. rewrite list_lookup_fmap, !list_lookup_imap.
    destruct (replicate _ _ !! i) as [row0|] eqn:E; [|done].
    apply lookup_replicate in E as [-> Hi]. cbn [fmap option_fmap option_map].
    intros [= <-]. rewrite length_imap.
    destruct (bc_at bv0 _ i); case_bool_decide;
      by rewrite ?length_replicate, ?length_imap, ?length_replicate.
Qed.

End BufferShape.

(** ** The assembled load vector and its finalisations *)

Section VectorSums.
Context {R : Type} {SR : Scalar R} (heap : SpaceId -> FunctionSpace).
Variable ropp : R -> R.
Hypothesis Rth : ring_theory rzero rone radd rmul rsub ropp (@eq R).

Add Ring vector_ring : Rth.

Lemma vcoeff_tabulate_vector (L : Form (R:=R)) cell n i :
  i < n -> vcoeff (tabulate_vector L cell (vec_setZero n)) i = tabulate_tensor L cell i 0.
Proof.
  intros Hi. unfold vcoeff, tabulate_vector, vec_setZero.
  by rewrite list_lookup_imap, lookup_replicate_2.
Qed.

(** X16.  The entry [r] of the vector assembled from empty is the sum,
    over the cells in mesh order and over the local indices [i] of the
    cell that its index array sends to [r], of the kernel's value [i] on
    the cell (ring arithmetic). *)
Theorem assembled_vector_is_sum_of_cell_vectors (L : Form (R:=R)) r :
  (assemble_vec_form heap VecEmpty L).1 r
  = sum_over (fun _ => true)
      (fun cell =>
         sum_over (fun p : nat * nat => bool_decide (p.2 = r))
           (fun p => tabulate_tensor L cell p.1 0)
           (indexed (cell_dofs (heap (function_space L 0)) cell)))
      (mesh_cells (form_mesh L)).
Proof.
  unfold assemble_vec_form. cbn [fst]. rewrite (vec_loop_sum heap ropp Rth).
  unfold vec_init at 1.
  rewrite (sum_over_ext ropp Rth _ _
             (fun cell =>
                sum_over (fun p : nat * nat => bool_decide (p.2 = r))
                  (fun p => tabulate_tensor L cell p.1 0)
                  (indexed (cell_dofs (heap (function_space L 0)) cell)))).
  - ring.
  - intros cell _ _. unfold assemble_vec_cell. cbn [fst]. unfold vec_add_local.
    rewrite (vec_add_pairs_sum ropp Rth). unfold vec_init.
    rewrite (sum_over_ext ropp Rth _ _ (fun p : nat * nat => tabulate_tensor L cell p.1 0)).
    + ring.
    + intros [i ii] Hp _. cbn [fst]. apply elem_of_indexed in Hp.
      apply vcoeff_tabulate_vector. by eapply lookup_lt_Some.
Qed.

End VectorSums.

(** The middle dof of the interval: local dof [1] of cell [0] and local
    dof [0] of cell [1]. *)
Lemma assembled_vector_is_sum_of_cell_vectors_witness :
  (assemble_vec_form Demo.heap VecEmpty Demo.L0).1 1
  = Z.add (tabulate_tensor Demo.L0 0 1 0) (tabulate_tensor Demo.L0 1 0 0).
Proof.
  exact (assembled_vector_is_sum_of_cell_vectors (SR:=Z_scalar) Demo.heap Z.opp
           InitialRing.Zth Demo.L0 1).
Defined.

Section VectorFinalisations.
Context {R : Type} {SR : Scalar R} (heap : SpaceId -> FunctionSpace).




End VectorFinalisations.


(** ** Conditions on other spaces *)

Section ForeignConditions.
Context {R : Type} {SR : Scalar R} (heap : SpaceId -> FunctionSpace).

Lemma collect_bc_foreign V mesh axis k (bc : DirichletBC (R:=R)) (bv : gmap nat R) :
  contains (heap V) (bc_function_space bc) = false ->
  collect_bc heap V mesh axis k bc bv = (bv, []).
Proof. intros Hbc. unfold collect_bc. by rewrite Hbc. Qed.

Lemma boundary_values_of_foreign V mesh axis (bcs : list (DirichletBC (R:=R))) :
  Forall (fun bc => contains (heap V) (bc_function_space bc) = false) bcs ->
  boundary_values_of heap V mesh axis bcs = (∅, []).
Proof.
  unfold boundary_values_of, indexed. generalize 0. generalize (∅ : gmap nat R).
  intros bv k Hbcs. revert bv k.
  induction Hbcs as [|bc bcs Hbc _ IH]; intros bv k; [done|].
  unfold indexed_from in *. cbn [length seq zip zip_with for_all fst snd].
  rewrite !collect_bc_foreign by done. cbn [fst snd]. by rewrite IH.
Qed.

Lemma boundary_values_by_axis_foreign V0 V1 mesh (bcs : list (DirichletBC (R:=R))) :
  Forall (fun bc => contains (heap V0) (bc_function_space bc) = false) bcs ->
  Forall (fun bc => contains (heap V1) (bc_function_space bc) = false) bcs ->
  boundary_values_by_axis heap V0 V1 mesh bcs = ((∅, ∅), []).
Proof.
  intros H0 H1. unfold boundary_values_by_axis, indexed.
  assert (Hgen : forall k (bv0 bv1 : gmap nat R),
            for_all (fun (p : nat * DirichletBC (R:=R)) (bvs : gmap nat R * gmap nat R) =>
                       let r0 := collect_bc heap V0 mesh 0 p.1 p.2 bvs.1 in
                       let r1 := collect_bc heap V1 mesh 1 p.1 p.2 bvs.2 in
                       ((r0.1, r1.1), r0.2 ++ r1.2))
                    (indexed_from k bcs) (bv0, bv1)
            = ((bv0, bv1), [])).
  { induction H0 as [|bc bcs Hbc0 _ IH]; intros k bv0 bv1; [done|].
    apply Forall_cons in H1 as [Hbc1 H1].
    unfold indexed_from in *. cbn [length seq zip zip_with for_all fst snd].
    rewrite !collect_bc_foreign by done. cbn [fst snd app]. by rewrite IH. }
  apply Hgen.
Qed.

(** X18.  Boundary conditions whose function space is contained in
    none of the spaces involved are ignored: no boundary values are
    asked for; single-form matrix assembly and the lifting correction
    run exactly as without any condition, and the boundary-value
    overwrite leaves every entry of the vector as it was. *)
Theorem foreign_conditions_ignored (a L : Form (R:=R)) (bcs : list DirichletBC)
  (Aid : MatId) (A : option (nat -> nat -> R)) (b : nat -> R) :
  Forall (fun bc => contains (heap (function_space a 0)) (bc_function_space bc) = false)
         bcs ->
  Forall (fun bc => contains (heap (function_space a 1)) (bc_function_space bc) = false)
         bcs ->
  Forall (fun bc => contains (heap (function_space L 0)) (bc_function_space bc) = false)
         bcs ->
  assemble_form heap Aid A a bcs = assemble_form heap Aid A a [] /\
  apply_bc heap b a bcs = (b, [EvVecApply]) /\
  (forall d, (set_bc heap b L bcs).1 d = b d) /\
  (set_bc heap b L bcs).2 = [EvVecSetLocal [] []; EvVecApply].
Proof.
  intros H0 H1 HL. split; [|split; [|split]].
  - unfold assemble_form.
    by rewrite (boundary_values_by_axis_foreign _ _ _ bcs H0 H1).
  - unfold apply_bc. rewrite (boundary_values_of_foreign _ _ _ bcs H1). cbn [fst snd].
    assert (Hcell : forall cell (x : nat -> R),
              apply_bc_cell heap a ∅ cell x = (x, @nil (Event (R:=R)))).
    { intros cell x. unfold apply_bc_cell.
      rewrite (proj2 (no_bc_on_cell (∅ : gmap nat R) _)); [done|].
      apply Forall_forall. intros d _. apply lookup_empty. }
    assert (Hloop : forall cells,
              for_all (apply_bc_cell heap a ∅) cells b = (b, @nil (Event (R:=R)))).
    { induction cells as [|cell cells IH]; [done|].
      cbn [for_all]. rewrite !Hcell. cbn [fst snd]. by rewrite IH. }
    by rewrite Hloop.
  - intros d. unfold set_bc. rewrite (boundary_values_of_foreign _ _ _ bcs HL).
    cbn [fst]. by rewrite map_to_list_empty.
  - unfold set_bc. rewrite (boundary_values_of_foreign _ _ _ bcs HL).
    cbn [fst snd]. by rewrite map_to_list_empty.
Qed.

End ForeignConditions.

(** The square form on the continuous space against a condition on the
    discontinuous space. *)
Lemma foreign_conditions_ignored_witness :
  assemble_form Demo.heap WholeMat None Demo.a_square [Demo.bc_dg]
  = assemble_form Demo.heap WholeMat None Demo.a_square [] /\
  apply_bc Demo.heap Demo.bvec Demo.a_square [Demo.bc_dg] = (Demo.bvec, [EvVecApply]) /\
  (forall d, (set_bc Demo.heap Demo.bvec Demo.L0 [Demo.bc_dg]).1 d = Demo.bvec d) /\
  (set_bc Demo.heap Demo.bvec Demo.L0 [Demo.bc_dg]).2 = [EvVecSetLocal [] []; EvVecApply].
Proof.
  apply (foreign_conditions_ignored Demo.heap Demo.a_square Demo.L0 [Demo.bc_dg]);
    by repeat constructor.
Defined.

(** ** Symmetric elimination *)

Section SymmetricElimination.
Context {R : Type} {SR : Scalar R} (heap : SpaceId -> FunctionSpace).
Variable ropp : R -> R.
Hypothesis Rth : ring_theory rzero rone radd rmul rsub ropp (@eq R).

Add Ring symmetric_ring : Rth.

Lemma sum_over_add {X} (P : X -> bool) (f g : X -> R) xs :
  sum_over P (fun x => radd (f x) (g x)) xs = radd (sum_over P f xs) (sum_over P g xs).
Proof.
  induction xs as [|x xs IH]; simpl; [ring|]. rewrite IH. destruct (P x); ring.
Qed.

Lemma sum_over_swap {X Y} (P : X -> bool) (Q : Y -> bool) (f : X -> Y -> R) xs ys :
  sum_over P (fun x => sum_over Q (fun y => f x y) ys) xs
  = sum_over Q (fun y => sum_over P (fun x => f x y) xs) ys.
Proof.
  induction xs as [|x xs IH]; simpl.
  - by rewrite (sum_over_zero ropp Rth).
  - rewrite IH. destruct (P x); [|done]. by rewrite sum_over_add.
Qed.

(** What a cell adds to the entry [(r, c)] when no dof is constrained. *)
Lemma cell_entry_sum Aid (a : Form (R:=R)) cell r c :
  (assemble_cell heap Aid a ∅ ∅ cell mat_init).1 r c
  = sum_over (fun p : nat * nat => bool_decide (p.2 = r))
      (fun p =>
         sum_over (fun q : nat * nat => bool_decide (q.2 = c))
           (fun q => tabulate_tensor a cell p.1 q.1)
           (indexed (cell_dofs (heap (function_space a 1)) cell)))
      (indexed (cell_dofs (heap (function_space a 0)) cell)).
Proof.
  unfold assemble_cell. cbn [fst]. unfold mat_add_local.
  rewrite (mat_add_pairs_sum ropp Rth). unfold mat_init.
  rewrite (sum_over_ext ropp Rth _ _
             (fun p : nat * nat =>
                sum_over (fun q : nat * nat => bool_decide (q.2 = c))
                  (fun q => tabulate_tensor a cell p.1 q.1)
                  (indexed (cell_dofs (heap (function_space a 1)) cell)))).
  - ring.
  - intros [i ii] Hp _. apply (sum_over_ext ropp Rth). intros [j jj] Hq _.
    cbn [fst]. apply elem_of_indexed in Hp. apply elem_of_indexed in Hq.
    rewrite coeff_cell_matrix_raw.
    apply (coeff_tabulate_matrix heap); [done| |]; by eapply lookup_lt_Some.
Qed.

Lemma raw_loop_symmetric Aid (a : Form (R:=R)) cells r c :
  function_space a 0 = function_space a 1 ->
  (forall cell i j, tabulate_tensor a cell i j = tabulate_tensor a cell j i) ->
  (for_all (assemble_cell heap Aid a ∅ ∅) cells mat_init).1 r c
  = (for_all (assemble_cell heap Aid a ∅ ∅) cells mat_init).1 c r.
Proof.
  intros HV Hsym. rewrite !(mat_loop_sum heap ropp Rth). unfold mat_init at 1 3.
  f_equal. apply (sum_over_ext ropp Rth). intros cell _ _.
  rewrite !cell_entry_sum, HV. rewrite sum_over_swap.
  apply (sum_over_ext ropp Rth). intros p _ _.
  apply (sum_over_ext ropp Rth). intros q _ _. apply Hsym.
Qed.

(** X19.  Elimination keeps symmetry: when the two spaces of the form
    are the same object and the kernel's element tensor is symmetric on
    every cell, the matrix assembled from empty under any boundary
    conditions is symmetric (ring arithmetic).  This is what zeroing the
    boundary columns along with the boundary rows is for. *)
Theorem assemble_form_symmetric (Aid : MatId) (a : Form (R:=R))
  (bcs : list DirichletBC) r c :
  function_space a 0 = function_space a 1 ->
  (forall cell i j, tabulate_tensor a cell i j = tabulate_tensor a cell j i) ->
  (assemble_form heap Aid None a bcs).1 r c = (assemble_form heap Aid None a bcs).1 c r.
Proof.
  intros HV Hsym. destruct (decide (r = c)) as [->|Hrc]; [done|].
  unfold assemble_form. cbn [fst snd].
  pose proof (boundary_values_by_axis_map heap (function_space a 0) (function_space a 1)
                (form_mesh a) bcs) as Hmaps.
  set (bvs := boundary_values_by_axis heap _ _ _ bcs) in *.
  assert (Hbv : bvs.1.2 = bvs.1.1) by (by rewrite Hmaps, HV).
  rewrite Hbv. set (bv := bvs.1.1).
  assert (H00 : radd (@rzero R SR) rzero = rzero) by ring.
  assert (Hcl : (for_all (assemble_cell heap Aid a bv bv) (mesh_cells (form_mesh a))
                   mat_init).1 r c
                = (for_all (assemble_cell heap Aid a bv bv) (mesh_cells (form_mesh a))
                     mat_init).1 c r).
  { destruct (bv !! r) as [vr|] eqn:Er.
    { rewrite !cell_loop_zero_at; try done; [right|left]; by exists vr. }
    destruct (bv !! c) as [vc|] eqn:Ec.
    { rewrite !cell_loop_zero_at; try done; [left|right]; by exists vc. }
    rewrite (cell_loop_free_at heap Aid a bv bv _ mat_init mat_init r c Er Ec eq_refl).
    rewrite (cell_loop_free_at heap Aid a bv bv _ mat_init mat_init c r Ec Er eq_refl).
    by apply raw_loop_symmetric. }
  rewrite bool_decide_eq_true_2 by done. cbn [fst]. unfold mat_zero_local.
  rewrite !bool_decide_eq_false_2; [exact Hcl| |]; by intros [? _].
Qed.

End SymmetricElimination.

(** The symmetric kernel [[2 1] [1 2]] on the interval, dof [0] fixed. *)
Lemma assemble_form_symmetric_witness :
  (assemble_form Demo.heap WholeMat None
     (mkForm Demo.mesh (fun _ => 0) (fun _ i j => if Nat.eqb i j then 2%Z else 1%Z))
     [Demo.bc_left]).1 1 2
  = (assemble_form Demo.heap WholeMat None
       (mkForm Demo.mesh (fun _ => 0) (fun _ i j => if Nat.eqb i j then 2%Z else 1%Z))
       [Demo.bc_left]).1 2 1.
Proof.
  apply (assemble_form_symmetric (SR:=Z_scalar) Demo.heap Z.opp InitialRing.Zth).
  - reflexivity.
  - intros cell i j. cbn [tabulate_tensor]. by rewrite (Nat.eqb_sym i j).
Defined.

(** ** The assembled system *)

Section AssembledSystem.
Context {R : Type} {SR : Scalar R} (heap : SpaceId -> FunctionSpace).
Variable ropp : R -> R.
Hypothesis Rth : ring_theory rzero rone radd rmul rsub ropp (@eq R).

Add Ring system_ring : Rth.

Lemma sum_over_pred_ext {X} (P Q : X -> bool) (f : X -> R) xs :
  (forall x, x ∈ xs -> P x = Q x) -> sum_over P f xs = sum_over Q f xs.
Proof.
  induction xs as [|x xs IH]; intros HPQ; simpl; [done|].
  rewrite IH by (intros y Hy; apply HPQ; by right).
  by rewrite (HPQ x) by (by left).
Qed.

(** A sum over a duplicate-free list, one term taken out. *)
Lemma sum_over_split (f : nat -> R) (xs : list nat) d :
  NoDup xs -> d ∈ xs ->
  sum_over (fun _ => true) f xs
  = radd (f d) (sum_over (fun x => negb (bool_decide (x = d))) f xs).
Proof.
  induction 1 as [|x xs Hx Hnd IH]; intros Hd.
  - by apply elem_of_nil in Hd.
  - simpl. destruct (decide (x = d)) as [->|Hne].
    + rewrite bool_decide_eq_true_2 by done. cbn [negb]. f_equal.
      apply sum_over_pred_ext. intros y Hy. symmetry. apply negb_true_iff.
      apply bool_decide_eq_false_2. by intros ->.
    + rewrite bool_decide_eq_false_2 by done. cbn [negb].
      apply elem_of_cons in Hd as [->|Hd]; [done|]. rewrite (IH Hd). ring.
Qed.

(** The matrix of a single-field system with one boundary dof. *)
Lemma single_dof_matrix_entries (a : Form (R:=R)) (bcs : list DirichletBC) Aid cdof v i c :
  function_space a 0 = function_space a 1 ->
  (boundary_values_of heap (function_space a 1) (form_mesh a) 1 bcs).1 = {[cdof := v]} ->
  (assemble_form heap Aid (Some mat_init) a bcs).1 i c
  = if bool_decide (i = cdof \/ c = cdof)
    then (if bool_decide (i = c) then rone else rzero)
    else (assemble_form heap Aid None a []).1 i c.
Proof.
  intros HV Hbv. rewrite boundary_values_of_map in Hbv.
  unfold assemble_form.
  change (boundary_values_by_axis heap (function_space a 0) (function_space a 1)
            (form_mesh a) []) with ((∅ : gmap nat R, ∅ : gmap nat R), @nil (Event (R:=R))).
  cbn [fst snd].
  pose proof (boundary_values_by_axis_map heap (function_space a 0) (function_space a 1)
                (form_mesh a) bcs) as Hmaps.
  set (bvs := boundary_values_by_axis heap _ _ _ bcs) in *.
  assert (Hbv0 : bvs.1.1 = {[cdof := v]}) by (by rewrite Hmaps, HV).
  assert (Hbv1 : bvs.1.2 = {[cdof := v]}) by (by rewrite Hmaps).
  rewrite Hbv0, Hbv1. rewrite !bool_decide_eq_true_2 by done. cbn [fst].
  assert (H00 : radd (@rzero R SR) rzero = rzero) by ring.
  unfold mat_zero_local. rewrite map_to_list_empty.
  rewrite (bool_decide_eq_false_2 (i = c /\ i ∈ (@nil (nat * R)).*1))
    by (intros [_ Hin]; by apply elem_of_nil in Hin).
  destruct (decide (i = cdof \/ c = cdof)) as [Hbc|Hbc].
  - rewrite (bool_decide_eq_true_2 (i = cdof \/ c = cdof)) by done.
    destruct (decide (i = c)) as [Hic|Hic].
    + subst c. rewrite (bool_decide_eq_true_2 (i = i)) by done.
      rewrite bool_decide_eq_true_2; [done|]. split; [done|].
      apply elem_of_boundary_rows. assert (i = cdof) as -> by (by destruct Hbc).
      rewrite lookup_singleton_eq. by eexists.
    + rewrite (bool_decide_eq_false_2 (i = c)) by done.
      rewrite bool_decide_eq_false_2 by (by intros [? _]).
      apply cell_loop_zero_at; [done| |done].
      destruct Hbc as [->| ->]; [left|right]; rewrite lookup_singleton_eq; by eexists.
  - rewrite (bool_decide_eq_false_2 (i = cdof \/ c = cdof)) by done.
    assert (Hi : i ≠ cdof) by (intros ->; apply Hbc; by left).
    assert (Hc : c ≠ cdof) by (intros ->; apply Hbc; by right).
    rewrite bool_decide_eq_false_2.
    + apply cell_loop_free_at; [by apply lookup_singleton_ne..|done].
    + intros [_ Hin]. apply elem_of_boundary_rows in Hin.
      rewrite lookup_singleton_ne in Hin by done. by destruct Hin.
Qed.

(** X20.  A single-field system -- a 1 x 1 table with a form whose two
    spaces are the same object, one linear form, one boundary dof [cdof]
    with value [v] in both boundary maps -- assembled into an empty
    matrix and vector by [assemble(A, b)].  The run returns a plain
    matrix [A] and a vector [x] such that, for every [u] that takes the
    value [v] at [cdof] and every duplicate-free list of dofs that holds
    [cdof]: row [cdof] of [A u = x] holds, and on every other row [i]
    the residual [(A u)(i) - x(i)] is the residual [(A0 u)(i) - F(i)] of
    the system assembled without boundary conditions ([A0] the matrix of
    the form, [F] the load vector).  Ring arithmetic. *)
Theorem assemble_system_single_field (asm : Assembler (R:=R)) (b : PETScVector)
  (a L0 : Form (R:=R)) cdof v :
  _a asm = [[Some a]] ->
  _l asm = [L0] ->
  function_space a 0 = function_space a 1 ->
  (boundary_values_of heap (function_space a 1) (form_mesh a) 1 (_bcs asm)).1
  = {[cdof := v]} ->
  (boundary_values_of heap (function_space L0 0) (form_mesh L0) 0 (_bcs asm)).1
  = {[cdof := v]} ->
  exists A x,
    status (assemble_system heap asm (MatEmpty, b)) = None /\
    final (assemble_system heap asm (MatEmpty, b)) = (MatAIJ A, VecData x) /\
    forall (u : nat -> R) (dofs : list nat),
      NoDup dofs -> cdof ∈ dofs -> u cdof = v ->
      sum_over (fun _ => true) (fun c => rmul (A cdof c) (u c)) dofs = x cdof /\
      forall i, i ≠ cdof ->
        rsub (sum_over (fun _ => true) (fun c => rmul (A i c) (u c)) dofs) (x i)
        = rsub (sum_over (fun _ => true)
                  (fun c => rmul ((assemble_form heap WholeMat None a []).1 i c) (u c))
                  dofs)
               ((assemble_vec_form heap b L0).1 i).
Proof.
  intros Ha Hl HV Hbv1 Hbv0.
  assert (HrunA : assemble_matrix heap asm MatEmpty
                  = mkRun None
                      (MatAIJ (assemble_form heap WholeMat (Some mat_init) a (_bcs asm)).1)
                      ([EvMatInit WholeMat]
                       ++ (assemble_form heap WholeMat (Some mat_init) a (_bcs asm)).2
                       ++ [EvMatApply WholeMat])).
  { unfold assemble_matrix, block_matrix, init_matrix, assemble_plain, form00.
    rewrite Ha. reflexivity. }
  assert (Hrunb : exists x,
             status (assemble_vector heap asm b) = None /\
             final (assemble_vector heap asm b) = VecData x /\
             x cdof = v /\
             forall i, i ≠ cdof ->
               x i = rsub ((assemble_vec_form heap b L0).1 i)
                          (rmul ((assemble_form heap WholeMat None a []).1 i cdof) v)).
  { unfold assemble_vector, lift_rows.
    rewrite Hl, Ha. cbn [lookup list_lookup length seq for_each].
    unfold and_then, lift, ret. cbn [status final trace].
    eexists. split; [done|]. split; [reflexivity|].
    unfold set_bc. cbn [fst]. split.
    - by rewrite vec_set_local_map, Hbv0, lookup_singleton_eq.
    - intros i Hi. rewrite vec_set_local_map, Hbv0, lookup_singleton_ne by done.
      cbn [default]. unfold apply_bc. cbn [fst]. rewrite Hbv1.
      rewrite (lifting_loop_one_dof heap ropp Rth a (mesh_cells (form_mesh a)) WholeMat
                 mat_init _ cdof v i HV Hi).
      unfold assemble_form. cbn [fst snd].
      rewrite bool_decide_eq_true_2 by done. cbn [fst].
      unfold mat_zero_local.
      rewrite bool_decide_eq_false_2.
      2:{ intros [_ Hin]. unfold boundary_values_by_axis in Hin. cbn in Hin.
          rewrite map_to_list_empty in Hin. by apply elem_of_nil in Hin. }
      unfold boundary_values_by_axis. cbn [indexed indexed_from length seq zip zip_with
                                           for_all fst snd].
      unfold mat_init at 2. ring. }
  destruct Hrunb as (x & Hst & Hfin & Hxc & Hxi).
  exists (assemble_form heap WholeMat (Some mat_init) a (_bcs asm)).1, x.
  unfold assemble_system. cbn [fst snd]. rewrite HrunA. cbn [status final trace].
  unfold and_then. cbn [status final trace fst snd]. rewrite Hst, Hfin.
  split; [done|]. split; [done|].
  intros u dofs Hnd Hin Hu.
  set (A := (assemble_form heap WholeMat (Some mat_init) a (_bcs asm)).1).
  set (A0 := (assemble_form heap WholeMat None a []).1) in *.
  assert (HA : forall i c,
             A i c = if bool_decide (i = cdof \/ c = cdof)
                     then (if bool_decide (i = c) then rone else rzero)
                     else A0 i c).
  { intros i c. apply (single_dof_matrix_entries a (_bcs asm) WholeMat cdof v i c HV Hbv1). }
  split.
  - rewrite (sum_over_split _ dofs cdof Hnd Hin), Hxc.
    rewrite (sum_over_ext ropp Rth _ _ (fun _ => rzero)).
    + rewrite (sum_over_zero ropp Rth), HA, Hu.
      rewrite !bool_decide_eq_true_2 by (done || by left). ring.
    + intros c _ Hc. apply negb_true_iff, bool_decide_eq_false_1 in Hc.
      rewrite HA, bool_decide_eq_true_2 by (by left).
      rewrite bool_decide_eq_false_2 by done. ring.
  - intros i Hi. rewrite (Hxi i Hi).
    rewrite !(sum_over_split _ dofs cdof Hnd Hin), Hu.
    rewrite (sum_over_ext ropp Rth (fun x0 => negb (bool_decide (x0 = cdof)))
               (fun c => rmul (A i c) (u c)) (fun c => rmul (A0 i c) (u c))).
    + rewrite HA, bool_decide_eq_true_2 by (by right).
      rewrite bool_decide_eq_false_2 by done. ring.
    + intros c _ Hc. apply negb_true_iff, bool_decide_eq_false_1 in Hc.
      rewrite HA, bool_decide_eq_false_2; [done|]. by intros [?|?].
Qed.

End AssembledSystem.

(** The single-field system on the interval, dof [0] fixed to [5]. *)
Lemma assemble_system_single_field_witness :
  exists A x,
    status (assemble_system Demo.heap Demo.asm_plain (MatEmpty, VecEmpty)) = None /\
    final (assemble_system Demo.heap Demo.asm_plain (MatEmpty, VecEmpty))
    = (MatAIJ A, VecData x) /\
    forall (u : nat -> Z) (dofs : list nat),
      NoDup dofs -> 0 ∈ dofs -> u 0 = 5%Z ->
      sum_over (fun _ => true) (fun c => Z.mul (A 0 c) (u c)) dofs = x 0 /\
      forall i, i ≠ 0 ->
        Z.sub (sum_over (fun _ => true) (fun c => Z.mul (A i c) (u c)) dofs) (x i)
        = Z.sub (sum_over (fun _ => true)
                   (fun c => Z.mul ((assemble_form Demo.heap WholeMat None
                                       Demo.a_square []).1 i c) (u c))
                   dofs)
                ((assemble_vec_form Demo.heap VecEmpty Demo.L0).1 i).
Proof.
  apply (assemble_system_single_field (SR:=Z_scalar) Demo.heap Z.opp InitialRing.Zth
           Demo.asm_plain VecEmpty Demo.a_square Demo.L0 0 5%Z); reflexivity.
Defined.
